(** * slideshow.py: photo slideshow ordering through an ATSP model

    Shallow embedding of [src/project/slideshow.py] and the properties of
    its parser, vertical pairing, interest score, tour model, tour
    extraction and score audit.

    Conventions of the embedding:
    - a Python [set] of tag strings is a [gset string];
    - a Python exception is a value [Raise e] of the [result] type, and a
      statement sequence that may raise is written in the [result] monad;
    - a [for] loop over a [range] is a fold over [seq]; the [while] loop
      of the pairing is a fixpoint on a fuel that the caller sets to the
      length of the list, and running out of it is an outcome of its own
      ([OutOfFuel]), which the theorems exclude;
    - a character is a code point below 256 ([ascii]);
    - the solver (gurobipy) is the only external collaborator: it is a
      [Variable] of the section that embeds [create_optimized_slideshow];
    - solution values and the objective value are Python floats in the
      source and rationals ([Q]) here; the only operation the source
      applies to them is the comparison [> 0.5]. *)

From Stdlib Require Import ZArith QArith Lia Lqa Ascii String List.
From stdpp Require Import base option list sorting gmap strings pretty.

#[local] Set Warnings "-clear-no-such-hyp".
Local Open Scope nat_scope.

(** ** Exceptions *)

Inductive exn : Type := IndexError | ValueError | KeyError.

(** The outcome of a piece of code: a value, an exception, or (for the
    one [while] loop of the program) a fuel that ran out. *)
Inductive result (A : Type) : Type :=
| Ok (a : A)
| Raise (e : exn)
| OutOfFuel.
Arguments Ok {A} a.
Arguments Raise {A} e.
Arguments OutOfFuel {A}.

Global Instance result_ret : MRet result := fun A a => Ok a.
Global Instance result_bind : MBind result := fun A B k r =>
  match r with
  | Ok a => k a
  | Raise e => Raise e
  | OutOfFuel => OutOfFuel
  end.

Global Instance exn_eq_dec : EqDecision exn.
Proof. solve_decision. Defined.
Global Instance result_eq_dec `{EqDecision A} : EqDecision (result A).
Proof. solve_decision. Defined.

(** [for a in l: st = body(st, a)], stopping at the first exception. *)
Fixpoint for_each {A St : Type} (l : list A) (body : St → A → result St)
    (st : St) : result St :=
  match l with
  | [] => Ok st
  | a :: l' => st' ← body st a; for_each l' body st'
  end.

(** [l[i]] for a non-negative index [i]: [IndexError] out of range. *)
Definition index {A : Type} (l : list A) (i : nat) : result A :=
  match l !! i with
  | Some a => Ok a
  | None => Raise IndexError
  end.

(** [d[k]] on a dict: [KeyError] when the key is missing. *)
Definition getitem `{Countable K} {V : Type} (d : gmap K V) (k : K) : result V :=
  match d !! k with
  | Some v => Ok v
  | None => Raise KeyError
  end.

(** ** Data model *)

Abbreviation tagset := (gset string).

(** A slide of the list [photos]: the photo indices and the tags. *)
Definition slide : Type := list nat * tagset.

(** An entry of [vertical_photos]: the photo index and the tags. *)
Definition vphoto : Type := nat * tagset.

(** ** Interest score *)

(** Python's [min(a, b, c)]. *)
Definition min3 (a b c : nat) : nat := Nat.min (Nat.min a b) c.

(** [compute_interest(tags1, tags2)]:
    [min(len(tags1 & tags2), len(tags1 - tags2), len(tags2 - tags1))]. *)
Definition compute_interest (tags1 tags2 : tagset) : nat :=
  min3 (size (tags1 ∩ tags2)) (size (tags1 ∖ tags2)) (size (tags2 ∖ tags1)).

(** ** Python string built-ins used by the parser *)

(** The line feed and the tabulation, as strings. *)
Definition LF : string := String (ascii_of_nat 10) EmptyString.
Definition TAB : string := String (ascii_of_nat 9) EmptyString.

(** [str.isspace] on a code point below 256. *)
Definition isspace (c : ascii) : bool :=
  let n := nat_of_ascii c in
  ((9 <=? n) && (n <=? 13)) || ((28 <=? n) && (n <=? 32))
  || (n =? 133) || (n =? 160).

Fixpoint lstrip (s : string) : string :=
  match s with
  | String c s' => if isspace c then lstrip s' else s
  | EmptyString => EmptyString
  end.

(** [s.strip()]. *)
Definition strip (s : string) : string :=
  String.rev (lstrip (String.rev (lstrip s))).

(** [s.split()]: the maximal runs of characters that are not whitespace.
    [cur] is the run being read, reversed. *)
Fixpoint split_go (cur : option string) (s : string) : list string :=
  match s with
  | EmptyString => option_list (String.rev <$> cur)
  | String c s' =>
      if isspace c
      then option_list (String.rev <$> cur) ++ split_go None s'
      else split_go (Some (String c (default EmptyString cur))) s'
  end.
Definition split (s : string) : list string := split_go None s.

(** Decimal digits with single underscores between them, as [int]
    accepts them. [prev] tells that the previous character was a digit. *)
Fixpoint int_digits (acc : Z) (prev : bool) (s : string) : option Z :=
  match s with
  | EmptyString => if prev then Some acc else None
  | String c s' =>
      if Ascii.eqb c "_" then
        if prev then int_digits acc false s' else None
      else
        match Ascii.is_nat c with
        | Some d => int_digits (10 * acc + Z.of_nat d)%Z true s'
        | None => None
        end
  end.

(** [int(s)] in base 10: surrounding whitespace, an optional sign, digits.
    [ValueError] otherwise. (The limit on the number of digits of recent
    interpreters is not part of the model.) *)
Definition int (s : string) : result Z :=
  let r :=
    match strip s with
    | String "+" d => int_digits 0 false d
    | String "-" d => Z.opp <$> int_digits 0 false d
    | d => int_digits 0 false d
    end in
  match r with
  | Some z => Ok z
  | None => Raise ValueError
  end.

(** ** Python list built-ins used by the parser *)

(** [l.pop()]: the last element, removed; [IndexError] on an empty list. *)
Definition pop {A : Type} (l : list A) : result (A * list A) :=
  match last l with
  | Some a => Ok (a, removelast l)
  | None => Raise IndexError
  end.

(** [l.sort(key=key, reverse=True)]: descending keys, and elements of equal
    key in their original order (the sort is stable, also when reversed).
    [insert_desc] puts [a] before the first element whose key is not
    larger than the key of [a]. *)
Fixpoint insert_desc {A : Type} (key : A → nat) (a : A) (l : list A) : list A :=
  match l with
  | [] => [a]
  | b :: l' =>
      if key b <=? key a then a :: b :: l' else b :: insert_desc key a l'
  end.
Fixpoint sort_reverse {A : Type} (key : A → nat) (l : list A) : list A :=
  match l with
  | [] => []
  | a :: l' => insert_desc key a (sort_reverse key l')
  end.

(** [sorted(l)] on a list of integers. *)
Definition sorted (l : list nat) : list nat := merge_sort (≤) l.

(** ** Input parser and vertical pairing *)

(** The body of [for i in range(1, N + 1)] of [read_input], on the state
    [(photos, vertical_photos)]. *)
Definition read_photo (lines : list string)
    (st : list slide * list vphoto) (i : nat) : result (list slide * list vphoto) :=
  let '(photos, vertical_photos) := st in
  line ← index lines i;
  let parts := split (strip line) in
  orientation ← index parts 0;
  let tags : tagset := list_to_set (drop 2 parts) in
  if decide (orientation = "H")
  then Ok (photos ++ [([i - 1], tags)], vertical_photos)
  else Ok (photos, vertical_photos ++ [(i - 1, tags)]).

(** [while len(vertical_photos) > 1: ...] of [read_input]. *)
Fixpoint pair_verticals (fuel : nat) (vertical_photos : list vphoto)
    (photos : list slide) : result (list slide) :=
  if 1 <? length vertical_photos then
    match fuel with
    | 0 => OutOfFuel
    | S fuel' =>
        '(p1, vertical_photos) ← pop vertical_photos;
        '(p2, vertical_photos) ← pop vertical_photos;
        pair_verticals fuel' vertical_photos
          (photos ++ [([p1.1; p2.1], p1.2 ∪ p2.2)])
    end
  else Ok photos.

(** [read_input], from the list [lines] that [f.readlines()] returns: the
    body from [N = int(lines[0].strip())] on. What [open] and [readlines]
    may raise before comes from the file system and is not part of it. *)
Definition read_input (lines : list string) : result (list slide) :=
  l0 ← index lines 0;
  N ← int (strip l0);
  '(photos, vertical_photos) ←
    for_each (seq 1 (Z.to_nat N)) (read_photo lines) ([], []);
  let vertical_photos := sort_reverse (λ x, size x.2) vertical_photos in
  pair_verticals (length vertical_photos) vertical_photos photos.

(** ** Tour model *)

(** [range(n)]. *)
Definition range (n : nat) : list nat := seq 0 n.

(** The decision variables: [x[i, j]] (binary) and [u[i]] (continuous). *)
Inductive var : Type :=
| x_ (i j : nat)
| u_ (i : nat).

Global Instance var_eq_dec : EqDecision var.
Proof. solve_decision. Defined.

(** A linear expression: the terms [coefficient * variable] of a
    [quicksum], in the order of the generator. *)
Definition LinExpr : Type := list (Z * var).

Inductive sense : Type := EQUAL | LESS_EQUAL.

Record Constr : Type := mkConstr {
  lhs : LinExpr;
  rel : sense;
  rhs : Z
}.

(** What [create_optimized_slideshow] hands to the solver. *)
Record Model : Type := mkModel {
  TimeLimit : Q;
  MIPGap : Q;
  x_vars : gmap (nat * nat) var;
  u_vars : gmap nat var;
  objective : LinExpr;          (* maximised *)
  constrs : list Constr
}.

(** What the solver leaves in the model after [optimize()]: the status
    code, the value [v.X] of every variable and the objective value. *)
Record Solution : Type := mkSolution {
  Status : Z;
  X : var → Q;
  ObjVal : Q
}.

(** Status codes of [GRB]. *)
Definition GRB_OPTIMAL : Z := 2.
Definition GRB_INFEASIBLE : Z := 3.
Definition GRB_TIME_LIMIT : Z := 9.

(** [model.addVars(S, S)]: a variable for every key [(i, j)] of
    [range(S) x range(S)], the diagonal included. *)
Definition addVars2 (S : nat) : gmap (nat * nat) var :=
  list_to_map (i ← range S; j ← range S; [((i, j), x_ i j)]).

(** [model.addVars(S)]. *)
Definition addVars1 (S : nat) : gmap nat var :=
  list_to_map (i ← range S; [(i, u_ i)]).

(** The objective of the model:
    [quicksum(compute_interest(photos[i][1], photos[j][1]) * x[i, j]
              for i in range(S) for j in range(S) if i != j)].
    [photos[i]] is in range for every [i] of [range(S)]; the default
    value is never read. *)
Definition build_objective (photos : list slide) : LinExpr :=
  let S := length photos in
  i ← range S; j ← range S;
  if decide (i ≠ j)
  then [(Z.of_nat (compute_interest (photos !!! i).2 (photos !!! j).2), x_ i j)]
  else [].

(** The two degree constraints of slide [i]. *)
Definition degree_constrs (S i : nat) : list Constr :=
  [ mkConstr (j ← range S; if decide (i ≠ j) then [(1%Z, x_ i j)] else [])
             EQUAL 1;
    mkConstr (j ← range S; if decide (i ≠ j) then [(1%Z, x_ j i)] else [])
             EQUAL 1 ].

(** The subtour elimination constraints:
    [u[i] - u[j] + S * x[i, j] <= S - 1] for [i != j] in [range(1, S)]. *)
Definition subtour_constrs (S : nat) : list Constr :=
  i ← seq 1 (S - 1); j ← seq 1 (S - 1);
  if decide (i ≠ j)
  then [mkConstr [(1%Z, u_ i); ((-1)%Z, u_ j); (Z.of_nat S, x_ i j)]
                 LESS_EQUAL (Z.of_nat S - 1)]
  else [].

(** The model that [create_optimized_slideshow] builds before it calls
    [model.optimize()]. *)
Definition build_model (photos : list slide) : Model :=
  let S := length photos in
  {| TimeLimit := 600;
     MIPGap := 1 # 1000000000;
     x_vars := addVars2 S;
     u_vars := addVars1 S;
     objective := build_objective photos;
     constrs := (i ← range S; degree_constrs S i) ++ subtour_constrs S |}.

(** The value of a linear expression, and the constraints that a
    variable assignment satisfies. *)
Definition eval_expr (val : var → Q) (e : LinExpr) : Q :=
  foldr (λ t acc, inject_Z t.1 * val t.2 + acc)%Q 0%Q e.

Definition satisfies (val : var → Q) (c : Constr) : Prop :=
  match rel c with
  | EQUAL => (eval_expr val (lhs c) == inject_Z (rhs c))%Q
  | LESS_EQUAL => (eval_expr val (lhs c) <= inject_Z (rhs c))%Q
  end.

Definition feasible (m : Model) (val : var → Q) : Prop :=
  Forall (satisfies val) (constrs m).

(** ** Tour extraction *)

(** The solved matrix: [x[i, j].X] for every key of the tupledict [x]. *)
Abbreviation solved_matrix := (gmap (nat * nat) Q).

(** [v > 0.5]. *)
Definition activated_value (v : Q) : bool := negb (Qle_bool v (1 # 2)).

(** The inner loop of [extract_slideshow_from_gurobi] over the [j] that
    are left:
    [for j in range(S): if current != j and x[current, j].X > 0.5:
    current = j; break]. The key is looked up only when [current != j]. *)
Fixpoint next_slide (x : solved_matrix) (current : nat) (js : list nat)
    : result nat :=
  match js with
  | [] => Ok current
  | j :: js' =>
      if decide (current ≠ j) then
        v ← getitem x (current, j);
        if activated_value v then Ok j else next_slide x current js'
      else next_slide x current js'
  end.

(** The body of [for _ in range(S)], on the state
    [(slideshow_order, current)]. *)
Definition extract_step (x : solved_matrix) (photos : list slide) (S : nat)
    (st : list (list nat) * nat) (_ : nat) : result (list (list nat) * nat) :=
  let '(slideshow_order, current) := st in
  photo ← index photos current;
  let slideshow_order := slideshow_order ++ [sorted photo.1] in
  current ← next_slide x current (range S);
  Ok (slideshow_order, current).

Definition extract_slideshow_from_gurobi (x : solved_matrix)
    (photos : list slide) (S : nat) : result (list (list nat)) :=
  '(slideshow_order, _) ← for_each (range S) (extract_step x photos S) ([], 0);
  Ok slideshow_order.

(** ** Score audit *)

Abbreviation photos_dict := (gmap (list nat) tagset).

(** [analyze_transitions]. [len(slideshow_order) - 1] is -1 on the empty
    list and [range(-1)] is empty, as [range (0 - 1)] is here. *)
Definition analyze_transitions (slideshow_order : list (list nat))
    (d : photos_dict) : result nat :=
  for_each (range (length slideshow_order - 1))
    (λ total_score i,
       k1 ← index slideshow_order i;
       t1 ← getitem d k1;
       k2 ← index slideshow_order (i + 1);
       t2 ← getitem d k2;
       Ok (total_score + compute_interest t1 t2))
    0.

(** ** Output writer *)

(** [sep.join(l)]. *)
Fixpoint join (sep : string) (l : list string) : string :=
  match l with
  | [] => ""
  | [s] => s
  | s :: l' => s +:+ sep +:+ join sep l'
  end.

(** [str(n)] of a non-negative integer. *)
Definition str (n : nat) : string := pretty n.

(** The text that [write_output] writes to the file. *)
Definition write_output (slideshow_order : list (list nat)) : string :=
  str (length slideshow_order) +:+ LF
  +:+ foldr (λ slide acc, join " " (str <$> slide) +:+ LF +:+ acc)
        "" slideshow_order.

(** ** Solving and the top level *)

(** [{tuple(sorted(photo[0])): photo[1] for photo in photos}]: a later
    slide replaces an earlier one of the same key. *)
Definition make_photos_dict (photos : list slide) : photos_dict :=
  foldl (λ d photo, <[sorted photo.1 := photo.2]> d) ∅ photos.

Section Solver.
(** [model.optimize()] of the external solver. *)
Variable optimize : Model → Solution.

Definition create_optimized_slideshow (photos : list slide)
    : result (list (list nat) * Q) :=
  let model := build_model photos in
  let S := length photos in
  let x := x_vars model in
  let sol := optimize model in
  if decide (Status sol = GRB_OPTIMAL) then
    slideshow ← extract_slideshow_from_gurobi (X sol <$> x) photos S;
    Ok (slideshow, ObjVal sol)
  else Ok ([], 0%Q).

(** [main] once the command line is checked, from the lines of the input
    file to the text written to [slideshow.sol], if any. The messages
    printed on the way are left out; the solver is taken to return a
    solution and the file to be writable, so that the errors of the
    solver library and of the file system are not part of it. *)
Definition main (lines : list string) : result (option string) :=
  photos ← read_input lines;
  let d := make_photos_dict photos in
  '(slideshow_order, optimal_score) ← create_optimized_slideshow photos;
  match slideshow_order with
  | _ :: _ =>
      final_score ← analyze_transitions slideshow_order d;
      Ok (Some (write_output slideshow_order))
  | [] => Ok None
  end.
End Solver.

(** * Notions used to state the properties *)

(** ** Well-formed input *)

(** The tokens of a record. *)
Definition line_parts (line : string) : list string := split (strip line).

(** A record [<orientation> <tagCount> <tag>*]: the orientation is [H] or
    [V] and the tag count is the number of tags that follow. *)
Definition well_formed_line (line : string) : bool :=
  match line_parts line with
  | o :: c :: tags =>
      (bool_decide (o = "H") || bool_decide (o = "V"))
      && bool_decide (int c = Ok (Z.of_nat (length tags)))
  | _ => false
  end.

(** The first line is the number of records that follow it. *)
Definition well_formed (lines : list string) : bool :=
  match lines with
  | l0 :: recs =>
      bool_decide (int (strip l0) = Ok (Z.of_nat (length recs)))
      && forallb well_formed_line recs
  | [] => false
  end.

Definition line_tags (line : string) : tagset :=
  list_to_set (drop 2 (line_parts line)).

Definition is_horizontal (line : string) : bool :=
  bool_decide (head (line_parts line) = Some "H").

(** The slides of the horizontal photos among the records, in input
    order; [i] is the index of the first record. *)
Fixpoint horizontal_slides (i : nat) (recs : list string) : list slide :=
  match recs with
  | [] => []
  | line :: recs' =>
      if is_horizontal line
      then ([i], line_tags line) :: horizontal_slides (S i) recs'
      else horizontal_slides (S i) recs'
  end.

(** The other photos among the records, in input order. *)
Fixpoint vertical_photos (i : nat) (recs : list string) : list vphoto :=
  match recs with
  | [] => []
  | line :: recs' =>
      if is_horizontal line
      then vertical_photos (S i) recs'
      else (i, line_tags line) :: vertical_photos (S i) recs'
  end.

(** Two records that differ at most by their second token, the declared
    tag count. *)
Definition same_but_count (line line' : string) : Prop :=
  head (line_parts line) = head (line_parts line')
  ∧ drop 2 (line_parts line) = drop 2 (line_parts line').

(** Keys in descending order along a list. *)
Definition descending {A : Type} (key : A → nat) (l : list A) : Prop :=
  ∀ i j a b, i ≤ j → l !! i = Some a → l !! j = Some b → key b ≤ key a.

(** The composite slide of two vertical photos. *)
Definition composite (p1 p2 : vphoto) : slide := ([p1.1; p2.1], p1.2 ∪ p2.2).

(** The slides made of the first two, the next two, ... elements of a
    list; a last element alone makes no slide. *)
Fixpoint pair_up (l : list vphoto) : list slide :=
  match l with
  | p1 :: p2 :: l' => composite p1 p2 :: pair_up l'
  | _ => []
  end.

(** ** Walks in a solved matrix *)

(** The tupledict has a key for every pair of [range(S) x range(S)]. *)
Definition keys_defined (x : solved_matrix) (S : nat) : bool :=
  forallb (λ i, forallb (λ j, bool_decide (is_Some (x !! (i, j)))) (range S))
          (range S).

(** [x[i, j]] is set: its value is above 0.5. *)
Definition activated (x : solved_matrix) (i j : nat) : bool :=
  match x !! (i, j) with
  | Some v => activated_value v
  | None => false
  end.

(** An activated edge from slide [i] to another slide [j]. *)
Definition edge (x : solved_matrix) (i j : nat) : bool :=
  bool_decide (i ≠ j) && activated x i j.

(** Slide [c] has no activated outgoing edge. *)
Definition no_outgoing (x : solved_matrix) (S c : nat) : bool :=
  forallb (λ j, negb (edge x c j)) (range S).

(** The slide after [c] on the walk: the first [j] of [range(S)] with an
    activated edge from [c], and [c] itself when there is none. *)
Definition successor (x : solved_matrix) (S c : nat) : nat :=
  default c (head (filter (λ j, edge x c j) (range S))).

(** The first [n] slides of the walk from slide [c]. *)
Fixpoint walk (x : solved_matrix) (S c n : nat) : list nat :=
  match n with
  | 0 => []
  | Datatypes.S n' => c :: walk x S (successor x S c) n'
  end.

(** The sorted photo-index tuple of slide [c]. *)
Definition slide_key (photos : list slide) (c : nat) : list nat :=
  sorted (photos !!! c).1.

(** The degree constraints, on activated edges: every slide has exactly
    one activated outgoing edge and exactly one activated incoming edge. *)
Definition degree_one (x : solved_matrix) (S : nat) : bool :=
  forallb (λ i, (length (filter (λ j, edge x i j) (range S)) =? 1)
                && (length (filter (λ j, edge x j i) (range S)) =? 1))
          (range S).

(** The slides of [cyc], in this order and back to the first one, are
    linked by activated edges. *)
Definition cycle_edges (x : solved_matrix) (cyc : list nat) : bool :=
  forallb (λ k, match cyc !! k, cyc !! ((k + 1) mod length cyc) with
                | Some a, Some b => edge x a b
                | _, _ => false
                end)
          (range (length cyc)).

(** [cyc] is a Hamiltonian cycle of the activated edges over [S] slides:
    it goes through every slide of [range(S)] exactly once. *)
Definition hamiltonian_cycle (x : solved_matrix) (S : nat) (cyc : list nat) : Prop :=
  cyc ≡ₚ range S ∧ cycle_edges x cyc = true.

(** ** Scores and solvers *)

(** The consecutive pairs of a list: [k - 1] pairs for [k] elements, the
    pair of the last and the first element not among them. *)
Definition consecutive_pairs {A : Type} (l : list A) : list (A * A) :=
  zip l (tail l).

(** The score of an order as an open path: the sum of the interest of its
    consecutive pairs of tag sets. *)
Definition path_score (tags : list tagset) : nat :=
  sum_list_with (λ p, compute_interest p.1 p.2) (consecutive_pairs tags).

(** A solver that reports [OPTIMAL] only with values that satisfy the
    constraints of the model. *)
Definition sound_solver (optimize : Model → Solution) : Prop :=
  ∀ m, Status (optimize m) = GRB_OPTIMAL → feasible m (X (optimize m)).

(** ** Parsed slides, declared variables and written lines *)

(** What [read_input] returns as a function of its first line and of the
    records that the first line counts. *)
Definition parsed_slides (recs : list string) : list slide :=
  horizontal_slides 0 recs
  ++ pair_up (reverse (sort_reverse (λ p : vphoto, size p.2)
                         (vertical_photos 0 recs))).


(** The text has the character [c]. *)
Fixpoint has_char (c : ascii) (s : string) : bool :=
  match s with
  | EmptyString => false
  | String a s' => Ascii.eqb a c || has_char c s'
  end.

(** The lines of a text: the pieces that end with a line feed, without
    it, and what follows the last line feed when it is not empty. [cur]
    is the beginning of the line being read. *)
Fixpoint text_lines_go (cur : string) (s : string) : list string :=
  match s with
  | EmptyString => if decide (cur = EmptyString) then [] else [cur]
  | String a s' =>
      if Ascii.eqb a (ascii_of_nat 10)
      then cur :: text_lines_go EmptyString s'
      else text_lines_go (cur +:+ String a EmptyString) s'
  end.
Definition text_lines (s : string) : list string := text_lines_go EmptyString s.

(** The text made of the given lines, a line feed after each of them. *)
Definition unlines (ls : list string) : string :=
  foldr (λ line acc, line +:+ LF +:+ acc) EmptyString ls.

(** * Concrete inputs *)

(** Five photos, three of them vertical, with 2, 1 and 3 tags. *)
Definition lines_5 : list string :=
  ["5" +:+ LF; "V 2 a b" +:+ LF; "H 2 b c" +:+ LF; "V 1 d" +:+ LF;
   "V 3 e f g" +:+ LF; "H 1 a" +:+ LF].

(** The declared photo count is 1 and two records follow. *)
Definition lines_extra : list string := ["1"; "H 1 a"; "V 1 b"].

(** The record declares five tags and lists one. *)
Definition lines_count : list string := ["1"; "H 5 a"].

(** Two horizontal slides and three horizontal slides. *)
Definition photos_2 : list slide := [([0], {["a"; "b"]}); ([1], {["b"; "c"]})].
Definition photos_3 : list slide :=
  [([0], {["a"; "b"]}); ([1], {["b"; "c"]}); ([2], {["a"; "c"; "d"]})].

(** The matrix over two slides with no edge activated. *)
Definition x_none : solved_matrix := (λ _, 0%Q) <$> addVars2 2.

(** The matrix over three slides of the cycle 0 -> 2 -> 1 -> 0. *)
Definition x_cycle : solved_matrix :=
  (λ v, match v with
        | x_ 0 2 | x_ 2 1 | x_ 1 0 => 1%Q
        | _ => 0%Q
        end) <$> addVars2 3.

(** One horizontal photo, and two. *)
Definition lines_1 : list string := ["1"; "H 1 a"].
Definition photos_1 : list slide := [([0], {["a"]})].
Definition lines_2 : list string := ["2"; "H 2 a b"; "H 2 b c"].

(** A solver that runs out of time with the tour 0 -> 1 -> 0 in hand;
    on [photos_2] the objective of this tour is 2. *)
Definition optimize_time_limit (m : Model) : Solution :=
  {| Status := GRB_TIME_LIMIT;
     X := λ v, match v with x_ 0 1 | x_ 1 0 => 1%Q | _ => 0%Q end;
     ObjVal := 2 |}.

(** A solver that finds every model infeasible. *)
Definition optimize_infeasible (m : Model) : Solution :=
  {| Status := GRB_INFEASIBLE; X := λ _, 0%Q; ObjVal := 0 |}.

(** A solver that reports the tour 0 -> 1 -> 0 as optimal. *)
Definition optimize_tour_2 (m : Model) : Solution :=
  {| Status := GRB_OPTIMAL;
     X := λ v, match v with x_ 0 1 | x_ 1 0 => 1%Q | _ => 0%Q end;
     ObjVal := 2 |}.

(** The order of [photos_3] along the cycle. *)
Definition order_3 : list (list nat) := [[0]; [2]; [1]].

(** The slides that [read_input] returns on [lines_5]. *)
Definition photos_5 : list slide :=
  [([1], {["b"; "c"]}); ([4], {["a"]}); ([2; 0], {["a"; "b"; "d"]})].

(** The matrix over four slides of the two cycles 0 -> 1 -> 0 and
    2 -> 3 -> 2. *)
Definition x_two_cycles : solved_matrix :=
  (λ v, match v with
        | x_ 0 1 | x_ 1 0 | x_ 2 3 | x_ 3 2 => 1%Q
        | _ => 0%Q
        end) <$> addVars2 4.

(** Four horizontal slides. *)
Definition photos_4 : list slide :=
  [([0], {["a"; "b"]}); ([1], {["b"; "c"]}); ([2], {["a"; "c"; "d"]});
   ([3], {["d"]})].

(** The values of the tour 0 -> 1 -> 0 over two slides. *)
Definition val_tour_2 : var → Q :=
  λ v, match v with x_ 0 1 | x_ 1 0 => 1%Q | _ => 0%Q end.

(** Four vertical photos of one tag each. *)
Definition lines_v4 : list string :=
  ["4"; "V 1 a"; "V 1 b"; "V 1 c"; "V 1 d"].

(** The matrix over three slides with the edges 0 -> 1 and 0 -> 2. *)
Definition x_fork : solved_matrix :=
  (λ v, match v with x_ 0 1 | x_ 0 2 => 1%Q | _ => 0%Q end) <$> addVars2 3.

(** * Properties *)

(** ** Sanity checks of the embedding on concrete inputs *)

Example compute_interest_ex :
  compute_interest {["a"; "b"; "c"]} {["b"; "c"; "d"; "e"]} = 1.
Proof. vm_compute. reflexivity. Qed.

Example strip_ex : strip ("  H 2 a b " +:+ LF) = "H 2 a b".
Proof. reflexivity. Qed.

Example split_ex :
  split (" H 2  a" +:+ TAB +:+ "b " +:+ LF) = ["H"; "2"; "a"; "b"].
Proof. reflexivity. Qed.

Example int_ex :
  int (" -1_0" +:+ LF) = Ok (-10)%Z ∧ int "007" = Ok 7%Z
  ∧ int "1__0" = Raise ValueError ∧ int "" = Raise ValueError
  ∧ int "5 a" = Raise ValueError.
Proof. repeat split; reflexivity. Qed.

(** The scenario of five photos: the two vertical photos make one slide,
    after the three horizontal ones. *)
Example read_input_ex :
  read_input ["5" +:+ LF; "H 2 a b" +:+ LF; "H 2 b c" +:+ LF; "V 1 d" +:+ LF;
              "V 1 e" +:+ LF; "H 1 a" +:+ LF]
  = Ok [([0], {["a"; "b"]}); ([1], {["b"; "c"]}); ([4], {["a"]});
        ([3; 2], {["d"; "e"]})].
Proof. vm_compute. reflexivity. Qed.

Example write_output_ex :
  write_output [[0]; [2; 3]; [10]]
  = "3" +:+ LF +:+ "0" +:+ LF +:+ "2 3" +:+ LF +:+ "10" +:+ LF.
Proof. vm_compute. reflexivity. Qed.

(** ** Interest score *)

(** C1. The interest score of two tag sets is the minimum of the size of
    their intersection, the size of A minus B and the size of B minus A:
    it is below each of the three and equal to one of them; it is 0 as
    soon as one of the two sets is empty. *)
Theorem compute_interest_min (A B : tagset) :
  compute_interest A B
    = Nat.min (size (A ∩ B)) (Nat.min (size (A ∖ B)) (size (B ∖ A)))
  ∧ (compute_interest A B ≤ size (A ∩ B)
     ∧ compute_interest A B ≤ size (A ∖ B)
     ∧ compute_interest A B ≤ size (B ∖ A))
  ∧ (compute_interest A B = size (A ∩ B)
     ∨ compute_interest A B = size (A ∖ B)
     ∨ compute_interest A B = size (B ∖ A))
  ∧ compute_interest ∅ B = 0
  ∧ compute_interest A ∅ = 0.
Proof.
  unfold compute_interest, min3. split_and!; try lia.
  - assert (∅ ∩ B = ∅) as -> by set_solver. rewrite size_empty. lia.
  - assert (A ∩ ∅ = ∅) as -> by set_solver. rewrite size_empty. lia.
Qed.

(** C9. The interest score is symmetric. *)
Theorem compute_interest_sym (A B : tagset) :
  compute_interest A B = compute_interest B A.
Proof.
  unfold compute_interest, min3.
  assert (B ∩ A = A ∩ B) as -> by set_solver. lia.
Qed.

(** ** The result monad and the loops *)

Lemma for_each_app {A St : Type} (l1 l2 : list A) (body : St → A → result St) st :
  for_each (l1 ++ l2) body st = st' ← for_each l1 body st; for_each l2 body st'.
Proof.
  revert st. induction l1 as [|a l1 IH]; intros st; simpl; [done|].
  destruct (body st a) as [st'| |]; simpl; auto.
Qed.

Lemma for_each_ext {A St : Type} (l : list A) (body body' : St → A → result St) st :
  (∀ st a, a ∈ l → body st a = body' st a) →
  for_each l body st = for_each l body' st.
Proof.
  revert st. induction l as [|a l IH]; intros st Hext; simpl; [done|].
  rewrite <- Hext by left.
  destruct (body st a) as [st'| |]; simpl; [|done..].
  apply IH. intros st0 b Hb. apply Hext. by right.
Qed.

Lemma index_Ok {A : Type} (l : list A) i a : l !! i = Some a → index l i = Ok a.
Proof. unfold index. by intros ->. Qed.

Lemma index_Raise {A : Type} (l : list A) i :
  length l ≤ i → index l i = Raise IndexError.
Proof. intros Hi. unfold index. by rewrite lookup_ge_None_2. Qed.

Lemma pop_snoc {A : Type} (l : list A) a : pop (l ++ [a]) = Ok (a, l).
Proof. unfold pop. by rewrite last_snoc, removelast_last. Qed.

(** ** The descending stable sort *)

Section sort_reverse.
Context {A : Type} (key : A → nat).

Lemma descending_cons a l :
  descending key (a :: l) ↔ Forall (λ b, key b ≤ key a) l ∧ descending key l.
Proof.
  split.
  - intros Hd. split.
    + apply Forall_lookup. intros j b Hb.
      apply (Hd 0 (S j) a b); [lia|done..].
    + intros i j b c Hij Hb Hc. apply (Hd (S i) (S j) b c); [lia|done..].
  - intros [Hall Hd] i j b c Hij Hb Hc.
    destruct i as [|i], j as [|j]; simplify_eq/=; try lia.
    + eapply Forall_lookup_1 in Hall; eauto.
    + eapply Hd; [|done..]. lia.
Qed.

Lemma insert_desc_Permutation a l : insert_desc key a l ≡ₚ a :: l.
Proof.
  induction l as [|b l IH]; simpl; [done|].
  case_match; [done|]. rewrite IH. apply Permutation_swap.
Qed.

Lemma sort_reverse_Permutation l : sort_reverse key l ≡ₚ l.
Proof.
  induction l as [|a l IH]; simpl; [done|].
  by rewrite insert_desc_Permutation, IH.
Qed.

Lemma insert_desc_descending a l :
  descending key l → descending key (insert_desc key a l).
Proof.
  induction l as [|b l IH]; simpl; intros Hd.
  - apply descending_cons. split; [constructor|]. intros ??????. by simplify_eq.
  - apply descending_cons in Hd as Hd'. destruct Hd' as [Hall Hl].
    destruct (key b <=? key a) eqn:Hk.
    + apply Nat.leb_le in Hk. apply descending_cons. split; [|done].
      constructor; [done|]. eapply Forall_impl; [done|]. simpl. lia.
    + apply Nat.leb_gt in Hk. apply descending_cons. split; [|auto].
      rewrite insert_desc_Permutation. constructor; [lia|done].
Qed.

Lemma sort_reverse_descending l : descending key (sort_reverse key l).
Proof.
  induction l as [|a l IH]; simpl.
  - intros ??????. by simplify_eq.
  - by apply insert_desc_descending.
Qed.

(** Stability: the elements of a given key keep their original order. *)
Lemma insert_desc_stable k a l :
  descending key l →
  filter (λ b, key b = k) (insert_desc key a l)
  = filter (λ b, key b = k) (a :: l).
Proof.
  induction l as [|b l IH]; simpl; intros Hd; [done|].
  apply descending_cons in Hd as [Hall Hl].
  destruct (key b <=? key a) eqn:Hk; [done|].
  apply Nat.leb_gt in Hk.
  rewrite !filter_cons, IH by done. rewrite !filter_cons.
  repeat case_decide; try done; lia.
Qed.

Lemma sort_reverse_stable k l :
  filter (λ b, key b = k) (sort_reverse key l) = filter (λ b, key b = k) l.
Proof.
  induction l as [|a l IH]; simpl; [done|].
  rewrite insert_desc_stable by auto using sort_reverse_descending.
  by rewrite !filter_cons, IH.
Qed.
End sort_reverse.

(** ** Input parser and vertical pairing *)

Lemma horizontal_slides_app i recs1 recs2 :
  horizontal_slides i (recs1 ++ recs2)
  = horizontal_slides i recs1 ++ horizontal_slides (i + length recs1) recs2.
Proof.
  revert i. induction recs1 as [|line recs1 IH]; intros i; simpl.
  - by rewrite Nat.add_0_r.
  - rewrite IH, <- Nat.add_succ_comm. by case_match.
Qed.

Lemma vertical_photos_app i recs1 recs2 :
  vertical_photos i (recs1 ++ recs2)
  = vertical_photos i recs1 ++ vertical_photos (i + length recs1) recs2.
Proof.
  revert i. induction recs1 as [|line recs1 IH]; intros i; simpl.
  - by rewrite Nat.add_0_r.
  - rewrite IH, <- Nat.add_succ_comm. by case_match.
Qed.

(** One iteration of the loop over the records, on a record that has at
    least one token. *)
Lemma read_photo_Ok lines i line photos vs :
  lines !! i = Some line →
  line_parts line ≠ [] →
  read_photo lines (photos, vs) i
  = Ok (photos ++ horizontal_slides (i - 1) [line],
        vs ++ vertical_photos (i - 1) [line]).
Proof.
  intros Hline Hparts. unfold read_photo. rewrite (index_Ok _ _ _ Hline). simpl.
  unfold is_horizontal, line_tags, line_parts in *.
  destruct (split (strip line)) as [|o parts] eqn:Hsplit; [done|]. simpl.
  destruct (decide (o = "H")) as [->|Ho].
  - rewrite bool_decide_eq_true_2 by done. by rewrite app_nil_r.
  - rewrite bool_decide_eq_false_2 by congruence. by rewrite app_nil_r.
Qed.

Local Arguments read_photo : simpl never.

(** The loop over the records: the horizontal slides in input order on
    one side, the vertical photos in input order on the other. *)
Lemma read_photos_loop l0 recs rest :
  Forall (λ line, line_parts line ≠ []) recs →
  for_each (seq 1 (length recs)) (read_photo (l0 :: recs ++ rest)) ([], [])
  = Ok (horizontal_slides 0 recs, vertical_photos 0 recs).
Proof.
  revert rest. induction recs as [|line recs IH] using rev_ind; intros rest Hall.
  { done. }
  apply Forall_app in Hall as [Hall Hline]. rewrite Forall_singleton in Hline.
  rewrite length_app, Nat.add_comm. simpl length. rewrite seq_S, for_each_app.
  rewrite <- (assoc_L (++)), IH by done. simpl.
  erewrite read_photo_Ok; [|..|done].
  - rewrite horizontal_slides_app, vertical_photos_app. simpl.
    by rewrite Nat.sub_0_r.
  - simpl. rewrite lookup_app_r by lia. by rewrite Nat.sub_diag.
Qed.

Lemma pair_up_length l : length (pair_up l) = length l / 2.
Proof.
  induction l as [l IH] using (induction_ltof1 _ length).
  destruct l as [|p1 [|p2 l]]; [done..|]. simpl pair_up. simpl length.
  rewrite IH by (unfold ltof; simpl; lia).
  change (S (S (length l))) with (1 * 2 + length l).
  rewrite Nat.div_add_l by done. lia.
Qed.

Lemma pair_up_lookup l k p1 p2 :
  l !! (2 * k) = Some p1 → l !! (2 * k + 1) = Some p2 →
  pair_up l !! k = Some (composite p1 p2).
Proof.
  revert l. induction k as [|k IH]; intros [|q1 [|q2 l]] H1 H2; simplify_eq/=.
  - done.
  - replace (k + S (k + 0)) with (S (2 * k)) in H1 by lia.
    replace (k + S (k + 0) + 1) with (S (2 * k + 1)) in H2 by lia.
    simpl in H1, H2. by apply IH.
Qed.

Lemma pair_up_indices l :
  concat ((λ s : slide, s.1) <$> pair_up l)
  = (λ p : vphoto, p.1) <$> take (2 * (length l / 2)) l.
Proof.
  induction l as [l IH] using (induction_ltof1 _ length).
  destruct l as [|p1 [|p2 l]]; [done..|]. simpl pair_up. simpl length.
  change (S (S (length l))) with (1 * 2 + length l).
  rewrite Nat.div_add_l by done.
  replace (2 * (1 + length l / 2)) with (S (S (2 * (length l / 2)))) by lia.
  simpl. rewrite IH by (unfold ltof; simpl; lia). done.
Qed.

(** The [while] loop pairs the elements of the list from its end, and
    the length of the list is fuel enough. *)
Lemma pair_verticals_pair_up fuel vs photos :
  length vs ≤ 2 * fuel + 1 →
  pair_verticals fuel vs photos = Ok (photos ++ pair_up (reverse vs)).
Proof.
  revert vs photos. induction fuel as [|fuel IH]; intros vs photos Hlen.
  - destruct vs as [|p [|q vs]]; simpl in *; [by rewrite app_nil_r..|lia].
  - rewrite <- (reverse_involutive vs) in Hlen |- *.
    destruct (reverse vs) as [|p1 [|p2 r]].
    + simpl. by rewrite app_nil_r.
    + simpl. by rewrite app_nil_r.
    + rewrite reverse_involutive.
      rewrite !reverse_cons, !length_app in Hlen. simpl in Hlen.
      rewrite !reverse_cons. simpl pair_verticals.
      rewrite !length_app. simpl length.
      replace (1 <? length (reverse r) + 1 + 1) with true
        by (symmetry; apply Nat.ltb_lt; lia).
      rewrite pop_snoc. simpl. rewrite pop_snoc. simpl.
      rewrite IH by lia. rewrite reverse_involutive.
      by rewrite <- (assoc_L (++)).
Qed.

Lemma well_formed_line_parts line :
  well_formed_line line = true → line_parts line ≠ [].
Proof. unfold well_formed_line. by destruct (line_parts line). Qed.

(** C2. On a well-formed input the vertical photos are sorted by
    descending number of tags and paired from the end of the sorted list:
    the k-th composite slide is made of the last two photos of what the
    earlier pairs left (no photo left has fewer tags than these two), its
    tags are the union of theirs, there are
    floor(V/2) composite slides, they come after all the horizontal slides
    in pairing order, and the photos they use are all the vertical photos
    when V is even and all but one (the first of the sorted list) when V
    is odd. *)
Theorem read_input_pairs_verticals (lines : list string) :
  well_formed lines = true →
  let recs := tail lines in
  let V := length (vertical_photos 0 recs) in
  let vs := sort_reverse (λ p : vphoto, size p.2) (vertical_photos 0 recs) in
  ∃ composites : list slide,
    read_input lines = Ok (horizontal_slides 0 recs ++ composites)
    ∧ vs ≡ₚ vertical_photos 0 recs
    ∧ descending (λ p : vphoto, size p.2) vs
    ∧ length composites = V / 2
    ∧ (∀ k, k < V / 2 →
         ∃ p1 p2, vs !! (V - 1 - 2 * k) = Some p1
                ∧ vs !! (V - 2 - 2 * k) = Some p2
                ∧ composites !! k = Some ([p1.1; p2.1], p1.2 ∪ p2.2)
                ∧ size p1.2 ≤ size p2.2
                ∧ ∀ m q, m < V - 2 - 2 * k → vs !! m = Some q →
                    size p2.2 ≤ size q.2)
    ∧ concat ((λ s : slide, s.1) <$> composites)
      = (λ p : vphoto, p.1) <$> reverse (drop (V mod 2) vs).
Proof.
  intros Hwf. destruct lines as [|l0 recs]; [done|]. simpl tail.
  apply andb_true_iff in Hwf as [HN Hrecs].
  apply bool_decide_eq_true in HN. rewrite forallb_forall in Hrecs.
  assert (Forall (λ line, line_parts line ≠ []) recs) as Hparts.
  { apply Forall_forall. intros line Hin.
    apply well_formed_line_parts, Hrecs. by apply list_elem_of_In. }
  intros rs V vs. subst rs.
  assert (length vs = V) as Hlen.
  { unfold vs, V. by rewrite sort_reverse_Permutation. }
  exists (pair_up (reverse vs)). split_and!.
  - unfold read_input. simpl. rewrite HN. simpl. rewrite Nat2Z.id.
    pose proof (read_photos_loop l0 recs [] Hparts) as Hloop.
    rewrite app_nil_r in Hloop. rewrite Hloop. simpl.
    apply pair_verticals_pair_up. change (length vs ≤ 2 * length vs + 1). lia.
  - apply sort_reverse_Permutation.
  - apply sort_reverse_descending.
  - by rewrite pair_up_length, length_reverse, Hlen.
  - intros k Hk.
    assert (2 * k + 1 < V) as Hk'.
    { pose proof (Nat.div_mod_eq V 2). lia. }
    destruct (lookup_lt_is_Some_2 vs (V - 1 - 2 * k)) as [p1 Hp1]; [lia|].
    destruct (lookup_lt_is_Some_2 vs (V - 2 - 2 * k)) as [p2 Hp2]; [lia|].
    pose proof (sort_reverse_descending (λ p : vphoto, size p.2)
                  (vertical_photos 0 recs)) as Hdesc.
    exists p1, p2. split_and!; [done..| | |].
    + apply pair_up_lookup.
      * rewrite reverse_lookup by lia. rewrite <- Hp1. f_equal. lia.
      * rewrite reverse_lookup by lia. rewrite <- Hp2. f_equal. lia.
    + apply (Hdesc (V - 2 - 2 * k) (V - 1 - 2 * k) p2 p1); [lia|done..].
    + intros m q Hm Hq.
      apply (Hdesc m (V - 2 - 2 * k) q p2); [lia|done..].
  - rewrite pair_up_indices, length_reverse, take_reverse, Hlen.
    do 3 f_equal. pose proof (Nat.div_mod_eq V 2). lia.
Qed.

Lemma read_input_pairs_verticals_witness :
  well_formed lines_5 = true
  ∧ ∃ composites : list slide,
      read_input lines_5 = Ok (horizontal_slides 0 (tail lines_5) ++ composites)
      ∧ length composites = 1
      ∧ concat ((λ s : slide, s.1) <$> composites) = [2; 0].
Proof.
  split; [reflexivity|].
  destruct (read_input_pairs_verticals lines_5 eq_refl)
    as (composites & Hread & _ & _ & Hlen & _ & Hidx).
  exists composites. split_and!; [exact Hread|exact Hlen|exact Hidx].
Defined.

(** An iteration over the records raises nothing but [IndexError], and
    it raises it when the record is missing. *)
Lemma read_photo_cases lines st i :
  (∃ st', read_photo lines st i = Ok st' ∧ i < length lines)
  ∨ read_photo lines st i = Raise IndexError.
Proof.
  destruct st as [photos vs]. unfold read_photo, index.
  destruct (lines !! i) as [line|] eqn:Hline; simpl; [|by right].
  apply lookup_lt_Some in Hline.
  destruct (split (strip line) !! 0); simpl; [|by right].
  case_decide; left; eauto.
Qed.

Lemma for_each_read_photo_raise lines l st i :
  i ∈ l → length lines ≤ i →
  for_each l (read_photo lines) st = Raise IndexError.
Proof.
  revert st. induction l as [|a l IH]; intros st Hin Hi.
  { by apply elem_of_nil in Hin. }
  simpl. destruct (read_photo_cases lines st a) as [(st' & -> & Ha)| ->]; [|done].
  simpl. apply IH; [|done].
  apply elem_of_cons in Hin as [->|]; [lia|done].
Qed.

Lemma read_photo_same_but_count lines lines' st i :
  option_Forall2 same_but_count (lines !! i) (lines' !! i) →
  read_photo lines' st i = read_photo lines st i.
Proof.
  destruct st as [photos vs]. unfold read_photo, index.
  intros [line line' [Hhd Htl]|]; simpl; [|done].
  unfold line_parts in *. rewrite <- !head_lookup, <- Hhd, <- Htl. done.
Qed.

(** The counterexample to C3: a declared photo count smaller than the
    number of records, and a declared tag count that is not the number of
    tags, are both accepted. *)
Lemma read_input_accepts_mismatch :
  (well_formed lines_extra = false
   ∧ read_input lines_extra = Ok [([0], {["a"]})])
  ∧ (well_formed lines_count = false
     ∧ read_input lines_count = Ok [([0], {["a"]})]).
Proof. repeat split; vm_compute; reflexivity. Qed.

Lemma read_photo_blank lines st i line :
  lines !! i = Some line → line_parts line = [] →
  read_photo lines st i = Raise IndexError.
Proof.
  intros Hline Hparts. destruct st as [photos vs]. unfold read_photo, index.
  rewrite Hline. simpl. unfold line_parts in Hparts. by rewrite Hparts.
Qed.

Lemma for_each_read_photo_blank lines l st i line :
  i ∈ l → lines !! i = Some line → line_parts line = [] →
  for_each l (read_photo lines) st = Raise IndexError.
Proof.
  intros Hin Hline Hparts. revert st Hin.
  induction l as [|a l IH]; intros st Hin.
  { by apply elem_of_nil in Hin. }
  simpl. destruct (read_photo_cases lines st a) as [(st' & Hok & Ha)| ->]; [|done].
  rewrite Hok. simpl. apply IH.
  apply elem_of_cons in Hin as [Heq|]; [|done].
  rewrite Heq in Hline.
  by rewrite (read_photo_blank lines st a line) in Hok.
Qed.

(** C3, amended. When the first line is an integer N, the parser raises
    [IndexError] if fewer than N lines follow, or if one of the first N
    lines that follow is blank. Otherwise it returns a slide list, also
    when more than N lines follow: the lines after the N-th record are
    ignored, the result being that of the input cut after the N-th
    record. The declared tag count of a record is never read: records
    that differ only by it give the same result. *)
Theorem read_input_count_checks (l0 : string) (recs : list string) (N : Z) :
  int (strip l0) = Ok N →
  ((Z.of_nat (length recs) < N)%Z → read_input (l0 :: recs) = Raise IndexError)
  ∧ ((N ≤ Z.of_nat (length recs))%Z →
       Exists (λ line, line_parts line = []) (take (Z.to_nat N) recs) →
       read_input (l0 :: recs) = Raise IndexError)
  ∧ ((N ≤ Z.of_nat (length recs))%Z →
       Forall (λ line, line_parts line ≠ []) (take (Z.to_nat N) recs) →
       ∃ photos, read_input (l0 :: recs) = Ok photos)
  ∧ ((N ≤ Z.of_nat (length recs))%Z →
       read_input (l0 :: recs) = read_input (l0 :: take (Z.to_nat N) recs))
  ∧ (∀ recs', Forall2 same_but_count recs recs' →
       read_input (l0 :: recs') = read_input (l0 :: recs)).
Proof.
  intros HN. unfold read_input. simpl. rewrite HN. simpl. split_and!.
  - intros Hlt.
    rewrite (for_each_read_photo_raise _ _ _ (S (length recs))); [done|..].
    + apply elem_of_seq. lia.
    + simpl. lia.
  - intros Hle Hblank.
    apply Exists_exists in Hblank as (line & Hin & Hparts).
    apply list_elem_of_lookup in Hin as [i Hi].
    apply lookup_take_Some in Hi as [Hi Hlt].
    rewrite (for_each_read_photo_blank _ _ _ (S i) line); [done| |done..].
    apply elem_of_seq. lia.
  - intros Hle Hparts. set (n := Z.to_nat N) in *.
    pose proof (read_photos_loop l0 (take n recs) (drop n recs) Hparts) as Hloop.
    rewrite take_drop, length_take_le in Hloop by lia.
    rewrite Hloop. simpl. set (vs := sort_reverse _ _).
    eexists. apply pair_verticals_pair_up.
    change (length vs ≤ 2 * length vs + 1). lia.
  - intros Hle. f_equal. apply for_each_ext. intros st i Hi.
    apply elem_of_seq in Hi. symmetry. apply read_photo_same_but_count.
    destruct i as [|i]; [lia|]. simpl. rewrite lookup_take_lt by lia.
    destruct (recs !! i); by constructor.
  - intros recs' Hrecs. f_equal. apply for_each_ext. intros st i Hi.
    apply read_photo_same_but_count.
    destruct i as [|i]; simpl.
    + constructor. done.
    + apply Forall2_lookup. done.
Qed.

Lemma read_input_count_checks_witness :
  read_input ["2"; "H 1 a"] = Raise IndexError
  ∧ read_input ["1"; ""; "H 1 a"] = Raise IndexError
  ∧ (∃ photos, read_input lines_extra = Ok photos)
  ∧ read_input lines_extra = read_input (take 2 lines_extra)
  ∧ read_input ["1"; "H 1 a"] = read_input lines_count.
Proof.
  split_and!.
  - destruct (read_input_count_checks "2" ["H 1 a"] 2 eq_refl)
      as (Hfew & _ & _ & _ & _).
    apply Hfew. simpl. lia.
  - destruct (read_input_count_checks "1" [""; "H 1 a"] 1 eq_refl)
      as (_ & Hblank & _ & _ & _).
    apply Hblank; [simpl; lia|]. apply Exists_cons_hd. reflexivity.
  - destruct (read_input_count_checks "1" ["H 1 a"; "V 1 b"] 1 eq_refl)
      as (_ & _ & Hok & _ & _).
    apply Hok; [simpl; lia|]. repeat constructor. discriminate.
  - destruct (read_input_count_checks "1" ["H 1 a"; "V 1 b"] 1 eq_refl)
      as (_ & _ & _ & Hmore & _).
    apply Hmore. simpl. lia.
  - destruct (read_input_count_checks "1" ["H 5 a"] 1 eq_refl)
      as (_ & _ & _ & _ & Hcount).
    apply Hcount. repeat constructor.
Defined.

(** ** Tour extraction *)

Lemma keys_defined_lookup x S i j :
  keys_defined x S = true → i < S → j < S → is_Some (x !! (i, j)).
Proof.
  unfold keys_defined, range. rewrite forallb_forall. intros Hkeys Hi Hj.
  specialize (Hkeys i). rewrite forallb_forall in Hkeys.
  eapply bool_decide_eq_true, Hkeys; apply in_seq; lia.
Qed.

(** The inner loop finds the first activated edge to another slide. *)
Lemma next_slide_filter x c js :
  (∀ j, j ∈ js → is_Some (x !! (c, j))) →
  next_slide x c js = Ok (default c (head (filter (λ j, edge x c j) js))).
Proof.
  induction js as [|j js IH]; intros Hkeys; [done|].
  destruct (Hkeys j) as [v Hv]; [left|].
  assert (next_slide x c js
          = Ok (default c (head (filter (λ j, edge x c j) js)))) as IH'.
  { apply IH. intros; apply Hkeys; by right. }
  assert (edge x c j = bool_decide (c ≠ j) && activated_value v) as He.
  { unfold edge, activated. by rewrite Hv. }
  simpl. rewrite filter_cons. unfold getitem. rewrite Hv. simpl.
  destruct (decide (c ≠ j)) as [Hcj|Hcj].
  - rewrite bool_decide_eq_true_2 in He by done. simpl in He.
    destruct (activated_value v); simpl.
    + rewrite decide_True by (apply Is_true_true_2, He). done.
    + rewrite decide_False by (apply Is_true_false_2, He). done.
  - rewrite bool_decide_eq_false_2 in He by done. simpl in He.
    rewrite decide_False by (apply Is_true_false_2, He). done.
Qed.

Lemma next_slide_successor x S c :
  keys_defined x S = true → c < S →
  next_slide x c (range S) = Ok (successor x S c).
Proof.
  intros Hkeys Hc. apply next_slide_filter. intros j Hj.
  apply elem_of_seq in Hj. apply (keys_defined_lookup x S); [done|lia..].
Qed.

Lemma successor_cases x S c :
  (successor x S c = c ∧ no_outgoing x S c = true)
  ∨ (successor x S c < S ∧ edge x c (successor x S c) = true
     ∧ no_outgoing x S c = false).
Proof.
  unfold successor, no_outgoing.
  destruct (filter (λ j, edge x c j) (range S)) as [|j l] eqn:Hf; simpl.
  - left. split; [done|]. apply forallb_forall. intros j Hj.
    apply list_elem_of_In in Hj.
    destruct (edge x c j) eqn:He; [|done].
    assert (j ∈ filter (λ j, edge x c j) (range S)) as Hin.
    { apply (list_elem_of_filter (λ j, edge x c j)). split; [by rewrite He|done]. }
    rewrite Hf in Hin. by apply elem_of_nil in Hin.
  - right.
    assert (j ∈ filter (λ j, edge x c j) (range S)) as Hin by (rewrite Hf; left).
    apply (list_elem_of_filter (λ j, edge x c j)) in Hin as [He Hj].
    apply Is_true_true in He.
    apply elem_of_seq in Hj. split_and!; [lia|done|].
    apply not_true_is_false. rewrite forallb_forall. intros Hall.
    specialize (Hall j). rewrite He in Hall. simpl in Hall.
    apply Bool.diff_false_true, Hall, in_seq. lia.
Qed.

Lemma successor_lt x S c : c < S → successor x S c < S.
Proof. destruct (successor_cases x S c) as [[-> _]|[? _]]; lia. Qed.

Lemma walk_length x S c n : length (walk x S c n) = n.
Proof. revert c. induction n as [|n IH]; intros c; simpl; auto. Qed.

Lemma walk_lookup x S c n k :
  k < n → walk x S c n !! k = Some (Nat.iter k (successor x S) c).
Proof.
  revert c k. induction n as [|n IH]; intros c [|k] Hk; simpl; try lia; [done|].
  rewrite IH by lia. f_equal. clear. induction k as [|k IH]; simpl; [done|].
  by rewrite IH.
Qed.

(** A slide without activated outgoing edge is a fixed point of the walk. *)
Lemma iter_successor_stuck x S c n :
  no_outgoing x S c = true → Nat.iter n (successor x S) c = c.
Proof.
  intros Hno. induction n as [|n IH]; simpl; [done|]. rewrite IH.
  destruct (successor_cases x S c) as [[? _]|(_ & _ & ?)]; congruence.
Qed.

Local Arguments next_slide : simpl never.

(** The outer loop appends the keys of the slides of the walk. *)
Lemma extract_loop x photos S l order c :
  keys_defined x S = true → S ≤ length photos → c < S →
  for_each l (extract_step x photos S) (order, c)
  = Ok (order ++ (slide_key photos <$> walk x S c (length l)),
        Nat.iter (length l) (successor x S) c).
Proof.
  intros Hkeys HS. revert order c.
  induction l as [|a l IH]; intros order c Hc; simpl.
  { by rewrite app_nil_r. }
  destruct (lookup_lt_is_Some_2 photos c) as [photo Hphoto]; [lia|].
  rewrite (index_Ok _ _ _ Hphoto). simpl.
  rewrite next_slide_successor by done. simpl.
  rewrite IH by by apply successor_lt.
  unfold slide_key at 2. rewrite (list_lookup_total_correct _ _ _ Hphoto).
  rewrite <- (assoc_L (++)). simpl. do 2 f_equal.
  clear. induction (length l) as [|n IHn]; simpl; [done|]. by rewrite IHn.
Qed.

Lemma extract_walk x photos S :
  keys_defined x S = true → S ≤ length photos →
  extract_slideshow_from_gurobi x photos S
  = Ok (slide_key photos <$> walk x S 0 S).
Proof.
  intros Hkeys HS. unfold extract_slideshow_from_gurobi.
  destruct S as [|S']; [done|].
  rewrite extract_loop by (done || lia). simpl.
  unfold range. by rewrite length_seq.
Qed.

(** The counterexample to C4: slide 0 has no activated outgoing edge,
    and the extraction returns an order that repeats it. *)
Lemma extract_stuck_returns :
  keys_defined x_none 2 = true
  ∧ no_outgoing x_none 2 0 = true
  ∧ extract_slideshow_from_gurobi x_none photos_2 2 = Ok [[0]; [0]].
Proof. repeat split; vm_compute; reflexivity. Qed.

(** C4, amended. When some step of the walk from slide 0 reaches a slide
    without activated outgoing edge, the extraction raises nothing: it
    returns S entries, and from that step on every entry is the tuple of
    that same slide. *)
Theorem extract_stuck_no_error (x : solved_matrix) (photos : list slide)
    (S k c : nat) :
  keys_defined x S = true →
  S ≤ length photos →
  walk x S 0 S !! k = Some c →
  no_outgoing x S c = true →
  ∃ order,
    extract_slideshow_from_gurobi x photos S = Ok order
    ∧ length order = S
    ∧ ∀ k', k ≤ k' < S → order !! k' = Some (slide_key photos c).
Proof.
  intros Hkeys HS Hk Hno. exists (slide_key photos <$> walk x S 0 S).
  split_and!.
  - by apply extract_walk.
  - by rewrite length_fmap, walk_length.
  - intros k' [Hkk' Hk'].
    assert (k < S) as HkS.
    { apply lookup_lt_Some in Hk. by rewrite walk_length in Hk. }
    rewrite walk_lookup in Hk by done. injection Hk as Hk.
    rewrite list_lookup_fmap, walk_lookup by done. simpl. do 2 f_equal.
    replace k' with ((k' - k) + k) by lia.
    rewrite Nat.iter_add, Hk. by apply iter_successor_stuck.
Qed.

Lemma extract_stuck_no_error_witness :
  ∃ order,
    extract_slideshow_from_gurobi x_none photos_2 2 = Ok order
    ∧ length order = 2
    ∧ ∀ k', 0 ≤ k' < 2 → order !! k' = Some (slide_key photos_2 0).
Proof.
  apply (extract_stuck_no_error x_none photos_2 2 0 0).
  - reflexivity.
  - simpl. lia.
  - reflexivity.
  - reflexivity.
Defined.

(** C10. For S >= 1, a slide list of at least S slides and any values of
    the S x S variables, the extraction returns S entries, the first one
    the tuple of slide 0; each entry is the tuple of the current slide,
    and once the current slide has no activated edge to another slide it
    stays the current slide for all the steps that follow. *)
Theorem extract_total (x : solved_matrix) (photos : list slide) (S : nat) :
  1 ≤ S →
  S ≤ length photos →
  keys_defined x S = true →
  ∃ (order : list (list nat)) (currents : list nat),
    extract_slideshow_from_gurobi x photos S = Ok order
    ∧ length order = S
    ∧ (∀ photo, photos !! 0 = Some photo → order !! 0 = Some (sorted photo.1))
    ∧ order = slide_key photos <$> currents
    ∧ currents !! 0 = Some 0
    ∧ (∀ k c, currents !! k = Some c → no_outgoing x S c = true →
         next_slide x c (range S) = Ok c
         ∧ ∀ k', k ≤ k' < S →
             currents !! k' = Some c ∧ order !! k' = Some (slide_key photos c)).
Proof.
  intros HS1 HS Hkeys.
  exists (slide_key photos <$> walk x S 0 S), (walk x S 0 S).
  assert (∀ k, k < S →
            walk x S 0 S !! k = Some (Nat.iter k (successor x S) 0)) as Hwalk.
  { intros k Hk. by apply walk_lookup. }
  split_and!.
  - by apply extract_walk.
  - by rewrite length_fmap, walk_length.
  - intros photo Hphoto. rewrite list_lookup_fmap, Hwalk by lia. simpl.
    unfold slide_key. by rewrite (list_lookup_total_correct _ _ _ Hphoto).
  - done.
  - by rewrite Hwalk by lia.
  - intros k c Hk Hno.
    assert (k < S) as HkS.
    { apply lookup_lt_Some in Hk. by rewrite walk_length in Hk. }
    rewrite Hwalk in Hk by done. injection Hk as Hk.
    assert (c < S) as Hc.
    { rewrite <- Hk. clear -HS1. induction k as [|k IH]; simpl; [lia|].
      by apply successor_lt. }
    split.
    + rewrite next_slide_successor by done. f_equal.
      apply (iter_successor_stuck x S c 1 Hno).
    + intros k' [Hkk' Hk'].
      assert (Nat.iter k' (successor x S) 0 = c) as Hk'c.
      { replace k' with ((k' - k) + k) by lia.
        rewrite Nat.iter_add, Hk. by apply iter_successor_stuck. }
      rewrite list_lookup_fmap, Hwalk by done. simpl. by rewrite Hk'c.
Qed.

Lemma extract_total_witness :
  ∃ (order : list (list nat)) (currents : list nat),
    extract_slideshow_from_gurobi x_none photos_2 2 = Ok order
    ∧ length order = 2
    ∧ order = slide_key photos_2 <$> currents
    ∧ currents !! 0 = Some 0.
Proof.
  destruct (extract_total x_none photos_2 2) as (order & currents & H).
  - lia.
  - simpl. lia.
  - reflexivity.
  - exists order, currents.
    destruct H as (Hex & Hlen & _ & Hord & Hcur & _). by split_and!.
Defined.

(** ** Extraction of a Hamiltonian cycle *)

(** Under the degree constraints the activated edge out of a slide is
    unique, and the walk follows it. *)
Lemma degree_one_successor x S i j :
  degree_one x S = true → i < S → j < S → edge x i j = true →
  successor x S i = j.
Proof.
  unfold degree_one, range. rewrite forallb_forall. intros Hdeg Hi Hj He.
  specialize (Hdeg i). rewrite andb_true_iff, !Nat.eqb_eq in Hdeg.
  destruct Hdeg as [Hout _]; [apply in_seq; lia|].
  unfold successor, range.
  destruct (filter (λ j, edge x i j) (seq 0 S)) as [|j0 [|j1 l]] eqn:Hf;
    simplify_eq/=.
  assert (j ∈ filter (λ j, edge x i j) (seq 0 S)) as Hin.
  { apply (list_elem_of_filter (λ j, edge x i j)).
    split; [by apply Is_true_true_2|apply elem_of_seq; lia]. }
  rewrite Hf in Hin. by apply list_elem_of_singleton in Hin.
Qed.

Lemma cycle_edges_lookup x cyc k a b :
  cycle_edges x cyc = true →
  cyc !! k = Some a → cyc !! ((k + 1) mod length cyc) = Some b →
  edge x a b = true.
Proof.
  unfold cycle_edges, range. rewrite forallb_forall. intros Hcyc Ha Hb.
  specialize (Hcyc k). rewrite Ha, Hb in Hcyc. apply Hcyc, in_seq.
  apply lookup_lt_Some in Ha. lia.
Qed.

(** A list read from position [p] on, cyclically. *)
Lemma rotation_lookup {A : Type} (l : list A) p k :
  p < length l → k < length l →
  (drop p l ++ take p l) !! k = l !! ((p + k) mod length l).
Proof.
  intros Hp Hk. destruct (decide (k < length l - p)) as [Hlt|Hge].
  - rewrite lookup_app_l by (rewrite length_drop; lia).
    rewrite lookup_drop. by rewrite Nat.mod_small by lia.
  - rewrite lookup_app_r by (rewrite length_drop; lia).
    rewrite length_drop, lookup_take_lt by lia. f_equal.
    replace (p + k) with ((k - (length l - p)) + 1 * length l) by lia.
    rewrite Nat.Div0.mod_add. by rewrite Nat.mod_small by lia.
Qed.

(** On a Hamiltonian cycle in which slide 0 is at position [p], the walk
    from slide 0 is at position [p + k] of the cycle after [k] steps. *)
Lemma walk_on_cycle x S cyc p k :
  degree_one x S = true → hamiltonian_cycle x S cyc →
  cyc !! p = Some 0 →
  cyc !! ((p + k) mod S) = Some (Nat.iter k (successor x S) 0).
Proof.
  intros Hdeg [Hperm Hcyc] Hp.
  assert (length cyc = S) as Hlen.
  { rewrite Hperm. unfold range. by rewrite length_seq. }
  assert (∀ i a, cyc !! i = Some a → a < S) as Hbound.
  { intros i a Ha. apply list_elem_of_lookup_2 in Ha. rewrite Hperm in Ha.
    apply elem_of_seq in Ha. lia. }
  assert (p < S) as HpS by (apply lookup_lt_Some in Hp; lia).
  induction k as [|k IH]; simpl.
  - by rewrite Nat.add_0_r, Nat.mod_small.
  - set (a := Nat.iter k (successor x S) 0) in *.
    destruct (lookup_lt_is_Some_2 cyc ((p + Datatypes.S k) mod S)) as [b Hb].
    { rewrite Hlen. apply Nat.mod_upper_bound. lia. }
    rewrite Hb. f_equal. symmetry.
    apply degree_one_successor; [done|by eapply Hbound..|].
    eapply cycle_edges_lookup; [done..|].
    rewrite Hlen, Nat.Div0.add_mod_idemp_l. rewrite <- Hb. f_equal. f_equal. lia.
Qed.

(** C7. When the activated edges satisfy the degree constraints and form
    a Hamiltonian cycle over the S slides, the extracted order starts at
    slide 0, has S elements, goes through every slide exactly once, its
    consecutive slides are linked by activated edges, and every activated
    edge links two consecutive slides of the order, except the one that
    closes the cycle from the last slide back to slide 0. (That the values
    are exactly 0 or 1 is not needed: only [> 0.5] is tested.) *)
Theorem extract_hamiltonian (x : solved_matrix) (photos : list slide)
    (S : nat) (cyc : list nat) :
  0 < S →
  S ≤ length photos →
  keys_defined x S = true →
  degree_one x S = true →
  hamiltonian_cycle x S cyc →
  ∃ (order : list (list nat)) (currents : list nat),
    extract_slideshow_from_gurobi x photos S = Ok order
    ∧ order = slide_key photos <$> currents
    ∧ head currents = Some 0
    ∧ length order = S
    ∧ currents ≡ₚ range S
    ∧ (∀ k a b, currents !! k = Some a → currents !! (k + 1) = Some b →
         edge x a b = true)
    ∧ (∀ a b, a < S → b < S → edge x a b = true →
         (∃ k, currents !! k = Some a ∧ currents !! (k + 1) = Some b)
         ∨ (last currents = Some a ∧ b = 0)).
Proof.
  intros HS0 HS Hkeys Hdeg Hham.
  pose proof Hham as [Hperm Hcyc].
  assert (length cyc = S) as Hlen.
  { rewrite Hperm. unfold range. by rewrite length_seq. }
  assert (0 ∈ cyc) as H0.
  { rewrite Hperm. apply elem_of_seq. lia. }
  apply list_elem_of_lookup in H0 as [p Hp].
  assert (p < S) as HpS by (apply lookup_lt_Some in Hp; lia).
  assert (∀ k, k < S →
            walk x S 0 S !! k = Some (Nat.iter k (successor x S) 0)) as Hwalk.
  { intros k Hk. by apply walk_lookup. }
  assert (walk x S 0 S = drop p cyc ++ take p cyc) as Hrot.
  { apply list_eq. intros k. destruct (decide (k < S)) as [Hk|Hk].
    - rewrite Hwalk, rotation_lookup, Hlen by lia.
      symmetry. by apply walk_on_cycle.
    - rewrite !lookup_ge_None_2; [done|..].
      + rewrite length_app, length_drop, length_take. lia.
      + rewrite walk_length. lia. }
  assert (walk x S 0 S ≡ₚ range S) as Hwperm.
  { rewrite Hrot, <- Hperm, (comm (++)). by rewrite take_drop. }
  assert (∀ k a, walk x S 0 S !! k = Some a →
            a < S ∧ edge x a (successor x S a) = true) as Hedge.
  { intros k a Ha. rewrite Hrot in Ha.
    assert (k < S) as Hk.
    { apply lookup_lt_Some in Ha.
      rewrite length_app, length_drop, length_take in Ha. lia. }
    rewrite rotation_lookup, Hlen in Ha by lia.
    assert (a < S) as HaS.
    { apply list_elem_of_lookup_2 in Ha. rewrite Hperm in Ha.
      apply elem_of_seq in Ha. lia. }
    split; [done|].
    destruct (lookup_lt_is_Some_2 cyc (((p + k) mod S + 1) mod S)) as [b Hb].
    { rewrite Hlen. apply Nat.mod_upper_bound. lia. }
    assert (edge x a b = true) as He.
    { eapply cycle_edges_lookup; [done..|]. by rewrite Hlen. }
    rewrite (degree_one_successor x S a b); [done..| |done].
    apply list_elem_of_lookup_2 in Hb. rewrite Hperm in Hb.
    apply elem_of_seq in Hb. lia. }
  exists (slide_key photos <$> walk x S 0 S), (walk x S 0 S). split_and!.
  - by apply extract_walk.
  - done.
  - destruct S; [lia|done].
  - by rewrite length_fmap, walk_length.
  - done.
  - intros k a b Ha Hb.
    assert (k + 1 < S) as Hk.
    { apply lookup_lt_Some in Hb. by rewrite walk_length in Hb. }
    destruct (Hedge k a Ha) as [_ He].
    rewrite Hwalk in Ha, Hb by lia. simplify_eq.
    by rewrite Nat.add_1_r.
  - intros a b HaS HbS He.
    assert (a ∈ walk x S 0 S) as Ha.
    { rewrite Hwperm. apply elem_of_seq. lia. }
    apply list_elem_of_lookup in Ha as [k Ha].
    assert (k < S) as Hk.
    { apply lookup_lt_Some in Ha. by rewrite walk_length in Ha. }
    assert (b = successor x S a) as Hb.
    { symmetry. by apply degree_one_successor. }
    pose proof Ha as Ha'. rewrite Hwalk in Ha' by done. injection Ha' as Ha'.
    destruct (decide (k + 1 < S)) as [Hk1|Hk1].
    + left. exists k. split; [done|].
      rewrite Hwalk by done. rewrite Nat.add_1_r. simpl. by rewrite Ha', Hb.
    + right. split.
      * rewrite last_lookup, walk_length. rewrite <- Ha. f_equal. lia.
      * assert (cyc !! ((p + S) mod S) = Some b) as Hclose.
        { rewrite (walk_on_cycle x S cyc p S) by done.
          assert (∀ n (f : nat → nat),
                    n = Datatypes.S k → Nat.iter n f 0 = f (Nat.iter k f 0))
            as Hiter by (by intros n f ->).
          rewrite (Hiter S) by lia. by rewrite Ha', Hb. }
        replace (p + S) with (p + 1 * S) in Hclose by lia.
        rewrite Nat.Div0.mod_add, Nat.mod_small in Hclose by done. congruence.
Qed.

Lemma extract_hamiltonian_witness :
  ∃ (order : list (list nat)) (currents : list nat),
    extract_slideshow_from_gurobi x_cycle photos_3 3 = Ok order
    ∧ order = slide_key photos_3 <$> currents
    ∧ head currents = Some 0
    ∧ length order = 3
    ∧ currents ≡ₚ range 3.
Proof.
  destruct (extract_hamiltonian x_cycle photos_3 3 [0; 2; 1])
    as (order & currents & Hex & Hord & Hhd & Hlen & Hperm & _).
  - lia.
  - simpl. lia.
  - reflexivity.
  - reflexivity.
  - split; [|reflexivity]. apply perm_skip, perm_swap.
  - exists order, currents. by split_and!.
Defined.

(** ** Score audit *)

Lemma consecutive_pairs_lookup {A : Type} (l : list A) i a b :
  l !! i = Some a → l !! (i + 1) = Some b →
  consecutive_pairs l !! i = Some (a, b).
Proof.
  intros Ha Hb. unfold consecutive_pairs.
  apply lookup_zip_with_Some. exists a, b. split_and!; [done..|].
  by rewrite lookup_tail, <- Nat.add_1_r.
Qed.

Lemma consecutive_pairs_length {A : Type} (l : list A) :
  length (consecutive_pairs l) = length l - 1.
Proof.
  unfold consecutive_pairs. rewrite length_zip_with.
  destruct l as [|a l]; [done|]. cbn [tail length]. lia.
Qed.

(** The loop of [analyze_transitions] from index [i] on, for [n] steps. *)
Lemma analyze_loop (order : list (list nat)) (d : photos_dict)
    (tags : list tagset) (i n total : nat) :
  Forall2 (λ key t, d !! key = Some t) order tags →
  i + n ≤ length order - 1 →
  for_each (seq i n)
    (λ total_score i,
       k1 ← index order i;
       t1 ← getitem d k1;
       k2 ← index order (i + 1);
       t2 ← getitem d k2;
       Ok (total_score + compute_interest t1 t2))
    total
  = Ok (total + sum_list_with (λ p, compute_interest p.1 p.2)
                  (take n (drop i (consecutive_pairs tags)))).
Proof.
  intros Hdict. revert i total.
  induction n as [|n IH]; intros i total Hin; simpl.
  { by rewrite Nat.add_0_r. }
  destruct (lookup_lt_is_Some_2 order i) as [k1 Hk1]; [lia|].
  destruct (lookup_lt_is_Some_2 order (i + 1)) as [k2 Hk2]; [lia|].
  destruct (Forall2_lookup_l _ _ _ _ _ Hdict Hk1) as (t1 & Ht1 & Hd1).
  destruct (Forall2_lookup_l _ _ _ _ _ Hdict Hk2) as (t2 & Ht2 & Hd2).
  rewrite (index_Ok _ _ _ Hk1), (index_Ok _ _ _ Hk2). unfold getitem.
  simpl. rewrite Hd1. simpl. rewrite Hd2. simpl.
  rewrite IH by lia.
  erewrite (drop_S _ _ i) by (by apply consecutive_pairs_lookup).
  simpl. f_equal. lia.
Qed.

Lemma analyze_transitions_sum (order : list (list nat)) (d : photos_dict)
    (tags : list tagset) :
  Forall2 (λ key t, d !! key = Some t) order tags →
  analyze_transitions order d = Ok (path_score tags).
Proof.
  intros Hdict. unfold analyze_transitions, range, path_score.
  rewrite (analyze_loop order d tags) by (done || lia).
  rewrite drop_0, take_ge; [done|].
  rewrite consecutive_pairs_length, (Forall2_length _ _ _ Hdict). lia.
Qed.

(** C8. The score audit returns the sum of the interest over the k - 1
    consecutive pairs of the order, the pair of the last and the first
    slide not included, and 0 for an order of at most one slide. *)
Theorem analyze_transitions_path_score (order : list (list nat))
    (d : photos_dict) (tags : list tagset) :
  Forall2 (λ key t, d !! key = Some t) order tags →
  analyze_transitions order d = Ok (path_score tags)
  ∧ length (consecutive_pairs tags) = length order - 1
  ∧ (∀ i t1 t2, consecutive_pairs tags !! i = Some (t1, t2) ↔
       tags !! i = Some t1 ∧ tags !! (i + 1) = Some t2)
  ∧ (length order ≤ 1 → analyze_transitions order d = Ok 0).
Proof.
  intros Hdict. split_and!.
  - by apply analyze_transitions_sum.
  - by rewrite consecutive_pairs_length, (Forall2_length _ _ _ Hdict).
  - intros i t1 t2. unfold consecutive_pairs. rewrite lookup_zip_with_Some.
    split.
    + intros (a & b & [= <- <-] & Ha & Hb).
      by rewrite lookup_tail, <- Nat.add_1_r in Hb.
    + intros [Ha Hb]. exists t1, t2. split_and!; [done..|].
      by rewrite lookup_tail, <- Nat.add_1_r.
  - intros Hlen. unfold analyze_transitions.
    by replace (length order - 1) with 0 by lia.
Qed.

Lemma analyze_transitions_path_score_witness :
  analyze_transitions order_3 (make_photos_dict photos_3)
  = Ok (path_score [{["a"; "b"]}; {["a"; "c"; "d"]}; {["b"; "c"]}]).
Proof.
  apply (analyze_transitions_path_score order_3 (make_photos_dict photos_3)).
  repeat constructor.
Defined.

(** ** Solving *)

Lemma addVars2_lookup S i j :
  i < S → j < S → addVars2 S !! (i, j) = Some (x_ i j).
Proof.
  intros Hi Hj. unfold addVars2.
  set (l := i ← range S; j ← range S; [((i, j), x_ i j)]).
  assert (∀ k v, (k, v) ∈ l ↔ ∃ i j, i < S ∧ j < S ∧ k = (i, j) ∧ v = x_ i j)
    as Hl.
  { intros k v. unfold l, range. rewrite list_elem_of_bind. split.
    - intros (i' & Hin & Hi'). apply list_elem_of_bind in Hin as (j' & Hin & Hj').
      apply list_elem_of_singleton in Hin. apply elem_of_seq in Hi', Hj'.
      exists i', j'. split_and!; [lia..|congruence|congruence].
    - intros (i' & j' & Hi' & Hj' & -> & ->). exists i'. split.
      + apply list_elem_of_bind. exists j'. split; [by left|].
        apply elem_of_seq. lia.
      + apply elem_of_seq. lia. }
  destruct (list_to_map l !! (i, j)) as [v|] eqn:Hlook.
  - apply elem_of_list_to_map_2, Hl in Hlook as (i' & j' & _ & _ & [= <- <-] & ->).
    done.
  - exfalso. apply not_elem_of_list_to_map in Hlook. apply Hlook.
    apply list_elem_of_fmap. exists ((i, j), x_ i j). split; [done|].
    apply Hl. eauto 10.
Qed.

(** The solved matrix that [create_optimized_slideshow] passes to the
    extraction has all the keys of [range(S) x range(S)]. *)
Lemma keys_defined_addVars2 (val : var → Q) S :
  keys_defined (val <$> addVars2 S) S = true.
Proof.
  unfold keys_defined, range. apply forallb_forall. intros i Hi.
  apply forallb_forall. intros j Hj. apply in_seq in Hi, Hj.
  apply bool_decide_eq_true. rewrite lookup_fmap, addVars2_lookup by lia.
  by eexists.
Qed.

(** The counterexample to C5: the solver stops at the time limit with a
    tour that satisfies every constraint of the model, and the tour is
    neither extracted nor written. *)
Lemma time_limit_tour_dropped :
  read_input lines_2 = Ok photos_2
  ∧ Status (optimize_time_limit (build_model photos_2)) = GRB_TIME_LIMIT
  ∧ feasible (build_model photos_2) (X (optimize_time_limit (build_model photos_2)))
  ∧ eval_expr (X (optimize_time_limit (build_model photos_2)))
      (objective (build_model photos_2))
    = ObjVal (optimize_time_limit (build_model photos_2))
  ∧ extract_slideshow_from_gurobi
      (X (optimize_time_limit (build_model photos_2)) <$> addVars2 2) photos_2 2
    = Ok [[0]; [1]]
  ∧ create_optimized_slideshow optimize_time_limit photos_2 = Ok ([], 0%Q)
  ∧ main optimize_time_limit lines_2 = Ok None.
Proof.
  split_and!; try (vm_compute; reflexivity).
  repeat constructor.
Qed.

(** C5, amended. Only the status [OPTIMAL] leads to an extraction. With
    any other status, a time limit reached with a feasible tour included,
    [create_optimized_slideshow] returns the empty order and the score 0,
    and [main] writes nothing; with the status [OPTIMAL] it returns the
    S entries of the walk from slide 0 and the objective value. *)
Theorem create_optimized_slideshow_status (optimize : Model → Solution)
    (photos : list slide) :
  let sol := optimize (build_model photos) in
  let S := length photos in
  (Status sol ≠ GRB_OPTIMAL →
     create_optimized_slideshow optimize photos = Ok ([], 0%Q)
     ∧ ∀ lines, read_input lines = Ok photos → main optimize lines = Ok None)
  ∧ (Status sol = GRB_OPTIMAL →
       create_optimized_slideshow optimize photos
       = Ok (slide_key photos <$> walk (X sol <$> addVars2 S) S 0 S, ObjVal sol)).
Proof.
  intros sol S. unfold create_optimized_slideshow. simpl. fold sol S. split.
  - intros Hstatus. rewrite decide_False by done. split; [done|].
    intros lines Hread. unfold main, create_optimized_slideshow.
    rewrite Hread. simpl. fold sol. by rewrite decide_False by done.
  - intros Hstatus. rewrite decide_True by done.
    rewrite extract_walk by (by rewrite ?keys_defined_addVars2). done.
Qed.

Lemma create_optimized_slideshow_status_witness :
  (create_optimized_slideshow optimize_time_limit photos_2 = Ok ([], 0%Q)
   ∧ ∀ lines, read_input lines = Ok photos_2 →
       main optimize_time_limit lines = Ok None)
  ∧ create_optimized_slideshow optimize_tour_2 photos_2
    = Ok (slide_key photos_2
            <$> walk (X (optimize_tour_2 (build_model photos_2)) <$> addVars2 2)
                  2 0 2,
          2%Q).
Proof.
  split.
  - destruct (create_optimized_slideshow_status optimize_time_limit photos_2)
      as [Hother _].
    apply Hother. discriminate.
  - destruct (create_optimized_slideshow_status optimize_tour_2 photos_2)
      as [_ Hopt].
    apply Hopt. reflexivity.
Defined.

(** The model of a single slide: the two degree constraints of slide 0
    have an empty sum on the left and 1 on the right. *)
Lemma build_model_single (s : slide) :
  constrs (build_model [s]) = [mkConstr [] EQUAL 1; mkConstr [] EQUAL 1].
Proof. reflexivity. Qed.

Lemma build_model_single_infeasible (s : slide) (val : var → Q) :
  ¬ feasible (build_model [s]) val.
Proof.
  unfold feasible. rewrite build_model_single. intros Hfeas.
  apply Forall_cons_1 in Hfeas as [Hsat _]. by vm_compute in Hsat.
Qed.

(** The counterexample to C6: for a single slide the model is built, its
    constraints cannot be satisfied, and with the solver's answer nothing
    is written. *)
Lemma single_slide_no_output :
  read_input lines_1 = Ok photos_1
  ∧ constrs (build_model photos_1) = [mkConstr [] EQUAL 1; mkConstr [] EQUAL 1]
  ∧ create_optimized_slideshow optimize_infeasible photos_1 = Ok ([], 0%Q)
  ∧ main optimize_infeasible lines_1 = Ok None.
Proof. split_and!; vm_compute; reflexivity. Qed.

(** C6, amended. A slide list with S <= 1 gets no special treatment: the
    model is built and handed to the solver. With a solver that reports
    [OPTIMAL] only for values that satisfy the constraints, the order
    returned is empty and nothing is written; for a single slide this is
    because no values satisfy the model, and the score is 0. *)
Theorem create_optimized_slideshow_small (optimize : Model → Solution)
    (photos : list slide) :
  length photos ≤ 1 →
  sound_solver optimize →
  ∃ score,
    create_optimized_slideshow optimize photos = Ok ([], score)
    ∧ (∀ lines, read_input lines = Ok photos → main optimize lines = Ok None)
    ∧ (length photos = 1 →
         (∀ val, ¬ feasible (build_model photos) val)
         ∧ Status (optimize (build_model photos)) ≠ GRB_OPTIMAL
         ∧ score = 0%Q).
Proof.
  intros Hlen Hsound.
  assert (∃ score, create_optimized_slideshow optimize photos = Ok ([], score)
                   ∧ (length photos = 1 →
                        (∀ val, ¬ feasible (build_model photos) val)
                        ∧ Status (optimize (build_model photos)) ≠ GRB_OPTIMAL
                        ∧ score = 0%Q)) as (score & Hcreate & Hone).
  { destruct photos as [|s [|s' photos]]; [| |simpl in Hlen; lia].
    - unfold create_optimized_slideshow. case_decide; simpl.
      + eexists. split; [reflexivity|]. done.
      + eexists. split; [reflexivity|]. done.
    - assert (Status (optimize (build_model [s])) ≠ GRB_OPTIMAL) as Hstatus.
      { intros Hopt. by apply Hsound, build_model_single_infeasible in Hopt. }
      exists 0%Q. unfold create_optimized_slideshow.
      rewrite decide_False by done. split; [done|]. intros _.
      split_and!; [|done..]. intros val. apply build_model_single_infeasible. }
  exists score. split_and!; [done| |done].
  intros lines Hread. unfold main. rewrite Hread. simpl. by rewrite Hcreate.
Qed.

Lemma create_optimized_slideshow_small_witness :
  ∃ score,
    create_optimized_slideshow optimize_infeasible photos_1 = Ok ([], score)
    ∧ (∀ lines, read_input lines = Ok photos_1 →
         main optimize_infeasible lines = Ok None).
Proof.
  destruct (create_optimized_slideshow_small optimize_infeasible photos_1)
    as (score & Hcreate & Hmain & _).
  - simpl. lia.
  - intros m Hopt. discriminate Hopt.
  - exists score. by split.
Defined.

(** ** The audit of an extracted order *)

Lemma make_photos_dict_snoc (photos : list slide) (p : slide) :
  make_photos_dict (photos ++ [p])
  = <[sorted p.1 := p.2]> (make_photos_dict photos).
Proof. unfold make_photos_dict. by rewrite foldl_app. Qed.

(** When no two slides have the same key, the dict gives back the tags
    of every slide. *)
Lemma make_photos_dict_lookup (photos : list slide) (c : nat) (p : slide) :
  NoDup ((λ p : slide, sorted p.1) <$> photos) →
  photos !! c = Some p →
  make_photos_dict photos !! sorted p.1 = Some p.2.
Proof.
  revert c. induction photos as [|q photos IH] using rev_ind; intros c Hnd Hc.
  { done. }
  rewrite fmap_app in Hnd. apply NoDup_app in Hnd as (Hnd & Hq & _).
  rewrite make_photos_dict_snoc.
  destruct (decide (c < length photos)) as [Hlt|Hge].
  - rewrite lookup_app_l in Hc by done.
    rewrite lookup_insert_ne; [by eapply IH|].
    intros Heq. apply (Hq (sorted p.1)).
    + apply list_elem_of_fmap. exists p. split; [done|].
      by eapply list_elem_of_lookup_2.
    + rewrite <- Heq. simpl. left.
  - rewrite lookup_app_r in Hc by lia.
    apply list_lookup_singleton_Some in Hc as [_ ->].
    by rewrite lookup_insert_eq.
Qed.

(** The order that the extraction builds from slides of distinct keys is
    audited without error, and its score is the open-path score of the
    tags of its slides. *)
Lemma analyze_transitions_extracted (photos : list slide) (currents : list nat) :
  NoDup ((λ p : slide, sorted p.1) <$> photos) →
  Forall (λ c, c < length photos) currents →
  analyze_transitions (slide_key photos <$> currents) (make_photos_dict photos)
  = Ok (path_score ((λ c, (photos !!! c).2) <$> currents)).
Proof.
  intros Hnd Hcur. apply analyze_transitions_sum.
  apply Forall2_fmap, Forall_Forall2_diag.
  eapply Forall_impl; [done|]. intros c Hc. simpl.
  destruct (lookup_lt_is_Some_2 photos c Hc) as [p Hp].
  unfold slide_key. erewrite !list_lookup_total_correct by exact Hp.
  by eapply make_photos_dict_lookup.
Qed.

(** ** Orbits of a function on the first [n] numbers *)

(** A list of numbers is duplicate-free or has two equal entries. *)
Lemma NoDup_or_repeat (l : list nat) :
  NoDup l ∨ ∃ i j x, i < j ∧ l !! i = Some x ∧ l !! j = Some x.
Proof.
  induction l as [|a l IH].
  { left. constructor. }
  destruct (decide (a ∈ l)) as [Hin|Hnin].
  - right. apply list_elem_of_lookup in Hin as [j Hj].
    exists 0, (S j), a. split_and!; [lia|done..].
  - destruct IH as [Hnd|(i & j & x & Hij & Hi & Hj)].
    + left. by constructor.
    + right. exists (S i), (S j), x. split_and!; [lia|done..].
Qed.

(** More than [n] numbers below [n] are not pairwise different. *)
Lemma pigeonhole (l : list nat) (n : nat) :
  Forall (λ a, a < n) l → NoDup l → length l ≤ n.
Proof.
  intros Hall Hnd. trans (length (seq 0 n)); [|by rewrite length_seq].
  apply submseteq_length.
  apply NoDup_submseteq; [done|]. intros a Ha.
  eapply Forall_forall in Hall; [|done]. apply elem_of_seq. lia.
Qed.

Lemma iter_pred (f : nat → nat) (k a : nat) :
  0 < k → Nat.iter k f a = f (Nat.iter (k - 1) f a).
Proof. intros Hk. destruct k as [|k]; [lia|]. simpl. by rewrite Nat.sub_0_r. Qed.

Section orbit.
Context (f : nat → nat) (n : nat).
Hypothesis f_bound : ∀ a, a < n → f a < n.

Lemma iter_bound a k : a < n → Nat.iter k f a < n.
Proof. intros Ha. induction k as [|k IH]; simpl; auto. Qed.

Lemma iter_succ_r k a : Nat.iter (S k) f a = Nat.iter k f (f a).
Proof. induction k as [|k IH]; simpl in *; [done|]. by rewrite IH. Qed.

(** A slide of the orbit of [a] is reached within [n - 1] steps. *)
Lemma orbit_short a b k :
  a < n → Nat.iter k f a = b → ∃ m, m < n ∧ Nat.iter m f a = b.
Proof.
  intros Ha. revert b. induction k as [k IH] using lt_wf_ind. intros b Hk.
  destruct (decide (k < n)) as [Hlt|Hge]; [eauto|].
  destruct (NoDup_or_repeat ((λ i, Nat.iter i f a) <$> seq 0 (S n)))
    as [Hnd|(i & j & x & Hij & Hi & Hj)].
  - apply pigeonhole with (n := n) in Hnd.
    + rewrite length_fmap, length_seq in Hnd. lia.
    + apply Forall_fmap, Forall_forall. intros i _. simpl. by apply iter_bound.
  - rewrite list_lookup_fmap in Hi, Hj.
    assert (j < S n) as Hjn.
    { destruct (seq 0 (S n) !! j) eqn:Hs; [|done].
      apply lookup_lt_Some in Hs. by rewrite length_seq in Hs. }
    rewrite !lookup_seq_lt in Hi, Hj by lia. simpl in Hi, Hj.
    simplify_eq.
    apply (IH (k - (j - i))); [lia|].
    replace (k - (j - i)) with ((k - j) + i) by lia.
    rewrite Nat.iter_add, Hi, <- Nat.iter_add. f_equal. lia.
Qed.
End orbit.

Section single_cycle.
Context (f : nat → nat) (n : nat) (u : nat → Q).
Hypothesis n_pos : 0 < n.
Hypothesis f_bound : ∀ a, a < n → f a < n.
Hypothesis f_inj : ∀ a b, a < n → b < n → f a = f b → a = b.
Hypothesis u_incr : ∀ a, 1 ≤ a → a < n → 1 ≤ f a → (u a + 1 <= u (f a))%Q.

Lemma u_increases a i j :
  a < n → (∀ k, k ≤ j → Nat.iter k f a ≠ 0) → i < j →
  (u (Nat.iter i f a) < u (Nat.iter j f a))%Q.
Proof.
  intros Ha Hnz Hij. induction j as [|j IH]; [lia|].
  assert (u (Nat.iter j f a) + 1 <= u (Nat.iter (S j) f a))%Q as Hstep.
  { simpl. apply u_incr.
    - specialize (Hnz j). lia.
    - by apply iter_bound.
    - specialize (Hnz (S j)). simpl in Hnz. lia. }
  destruct (decide (i = j)) as [->|Hne]; [lra|].
  assert (u (Nat.iter i f a) < u (Nat.iter j f a))%Q.
  { apply IH; [|lia]. intros k Hk. apply Hnz. lia. }
  lra.
Qed.

(** Every orbit goes through slide 0. *)
Lemma orbit_hits_zero a : a < n → ∃ k, Nat.iter k f a = 0.
Proof.
  intros Ha.
  set (l := (λ i, Nat.iter i f a) <$> seq 0 (S n)).
  destruct (decide (0 ∈ l)) as [Hin|Hnin].
  { apply list_elem_of_fmap in Hin as (k & Hk & _). eauto. }
  assert (∀ k, k ≤ n → Nat.iter k f a ≠ 0) as Hnz.
  { intros k Hk Hz. apply Hnin, list_elem_of_fmap. exists k.
    split; [done|]. apply elem_of_seq. lia. }
  assert (NoDup l) as Hnd.
  { apply NoDup_alt. intros i j x Hi Hj. unfold l in Hi, Hj.
    rewrite list_lookup_fmap in Hi, Hj.
    assert (i < S n ∧ j < S n) as [Hin Hjn].
    { destruct (seq 0 (S n) !! i) eqn:Hsi; [|done].
      destruct (seq 0 (S n) !! j) eqn:Hsj; [|done].
      apply lookup_lt_Some in Hsi, Hsj. by rewrite length_seq in Hsi, Hsj. }
    rewrite !lookup_seq_lt in Hi, Hj by done. simpl in Hi, Hj.
    injection Hi as <-. injection Hj as Hj.
    destruct (Nat.lt_trichotomy i j) as [Hlt|[->|Hlt]]; [|done|].
    - pose proof (u_increases a i j Ha) as Hu.
      rewrite Hj in Hu. exfalso. apply (Qlt_irrefl (u (Nat.iter i f a))).
      apply Hu; [|done]. intros k Hk. apply Hnz. lia.
    - pose proof (u_increases a j i Ha) as Hu.
      rewrite Hj in Hu. exfalso. apply (Qlt_irrefl (u (Nat.iter i f a))).
      apply Hu; [|done]. intros k Hk. apply Hnz. lia. }
  apply pigeonhole with (n := n) in Hnd.
  - unfold l in Hnd. rewrite length_fmap, length_seq in Hnd. lia.
  - apply Forall_fmap, Forall_forall. intros i _. simpl. by apply iter_bound.
Qed.

Lemma orbit_back_closed b m :
  b < n → Nat.iter m f 0 = f b → ∃ m', Nat.iter m' f 0 = b.
Proof.
  intros Hb Hm. destruct m as [|m].
  - destruct (orbit_hits_zero (f 0)) as [k Hk]; [by apply f_bound|].
    rewrite <- iter_succ_r in Hk. simpl in Hm, Hk.
    exists k. apply f_inj; [by apply iter_bound|done|congruence].
  - simpl in Hm. exists m. apply f_inj; [by apply iter_bound|done..].
Qed.

(** Every slide is on the orbit of slide 0, within [n - 1] steps. *)
Lemma all_in_orbit a : a < n → ∃ m, m < n ∧ Nat.iter m f 0 = a.
Proof.
  intros Ha.
  assert (∃ m, Nat.iter m f 0 = a) as [m Hm].
  { destruct (orbit_hits_zero a Ha) as [k Hk]. revert a Ha Hk.
    induction k as [|k IH]; intros a Ha Hk.
    - exists 0. by simpl in *.
    - rewrite iter_succ_r in Hk.
      destruct (IH (f a)) as [m Hm]; [by apply f_bound|done|].
      by apply (orbit_back_closed a m). }
  by apply (orbit_short f n f_bound 0 a m).
Qed.

Lemma orbit_Permutation : (λ k, Nat.iter k f 0) <$> seq 0 n ≡ₚ seq 0 n.
Proof.
  symmetry. apply submseteq_length_Permutation.
  - apply NoDup_submseteq; [apply NoDup_seq|]. intros a Ha.
    apply elem_of_seq in Ha. destruct (all_in_orbit a) as (m & Hm & Hma); [lia|].
    apply list_elem_of_fmap. exists m. split; [done|]. apply elem_of_seq. lia.
  - by rewrite length_fmap.
Qed.

(** After [n] steps the orbit of slide 0 is back at slide 0. *)
Lemma orbit_closes : Nat.iter n f 0 = 0.
Proof.
  destruct (all_in_orbit (Nat.iter n f 0)) as (m & Hm & Hmn);
    [by apply iter_bound|].
  destruct m as [|m]; [done|].
  rewrite (iter_pred f n) in Hmn by done. simpl in Hmn.
  apply f_inj in Hmn; [|by apply iter_bound..].
  assert (NoDup ((λ k, Nat.iter k f 0) <$> seq 0 n)) as Hnd.
  { rewrite orbit_Permutation. apply NoDup_seq. }
  assert (m = n - 1); [|lia].
  eapply NoDup_alt; [exact Hnd|..].
  - rewrite list_lookup_fmap, lookup_seq_lt by lia. done.
  - rewrite list_lookup_fmap, lookup_seq_lt by lia. simpl. by rewrite Hmn.
Qed.
End single_cycle.

(** ** From the constraints of the model to a Hamiltonian cycle *)

Lemma eval_expr_app val e1 e2 :
  (eval_expr val (e1 ++ e2) == eval_expr val e1 + eval_expr val e2)%Q.
Proof.
  induction e1 as [|t e1 IH]; simpl.
  - lra.
  - rewrite IH. lra.
Qed.

Lemma activated_value_binary (v : Q) :
  (v == 0 ∨ v == 1)%Q →
  (activated_value v = false ∧ v == 0)%Q ∨ (activated_value v = true ∧ v == 1)%Q.
Proof.
  unfold activated_value. intros [Hv|Hv]; [left|right]; split; try done.
  - apply negb_false_iff, Qle_bool_iff. lra.
  - apply negb_true_iff, not_true_is_false. rewrite Qle_bool_iff. lra.
Qed.

Section feasible.
Context (val : var → Q) (S : nat).
Hypothesis val_binary : ∀ i j, (val (x_ i j) == 0 ∨ val (x_ i j) == 1)%Q.

Local Abbreviation x := (val <$> addVars2 S).

Lemma solved_lookup i j : i < S → j < S → x !! (i, j) = Some (val (x_ i j)).
Proof. intros Hi Hj. by rewrite lookup_fmap, addVars2_lookup. Qed.

Lemma edge_binary i j :
  i < S → j < S →
  (edge x i j = false ∧ (i = j ∨ val (x_ i j) == 0)%Q)
  ∨ (edge x i j = true ∧ i ≠ j ∧ (val (x_ i j) == 1)%Q).
Proof.
  intros Hi Hj. unfold edge, activated. rewrite solved_lookup by done.
  destruct (decide (i = j)) as [->|Hij].
  { left. rewrite bool_decide_eq_false_2 by naive_solver. auto. }
  rewrite bool_decide_eq_true_2 by done. simpl.
  destruct (activated_value_binary _ (val_binary i j)) as [[-> ?]|[-> ?]]; auto.
Qed.

(** The sum of a row of the matrix counts the activated edges. *)
Lemma row_sum i js :
  i < S → Forall (λ j, j < S) js →
  (eval_expr val (j ← js; if decide (i ≠ j) then [(1%Z, x_ i j)] else [])
   == inject_Z (Z.of_nat (length (filter (λ j, edge x i j) js))))%Q.
Proof.
  intros Hi Hjs. induction Hjs as [|j js Hj Hjs IH]; simpl; [done|].
  rewrite eval_expr_app, IH, filter_cons.
  destruct (edge_binary i j Hi Hj) as [[He Hv]|(He & Hij & Hv)].
  - rewrite (decide_False (P := Is_true (edge x i j)))
      by (apply Is_true_false_2, He).
    destruct (decide (i ≠ j)) as [Hij|Hij]; simpl; [|lra].
    destruct Hv as [->|Hv]; [done|]. rewrite Hv. lra.
  - rewrite (decide_True (P := Is_true (edge x i j)))
      by (apply Is_true_true_2, He).
    rewrite decide_True by done. simpl length.
    rewrite Nat2Z.inj_succ. unfold Z.succ. rewrite inject_Z_plus.
    simpl. rewrite Hv. lra.
Qed.

Lemma col_sum i js :
  i < S → Forall (λ j, j < S) js →
  (eval_expr val (j ← js; if decide (i ≠ j) then [(1%Z, x_ j i)] else [])
   == inject_Z (Z.of_nat (length (filter (λ j, edge x j i) js))))%Q.
Proof.
  intros Hi Hjs. induction Hjs as [|j js Hj Hjs IH]; simpl; [done|].
  rewrite eval_expr_app, IH, filter_cons.
  destruct (edge_binary j i Hj Hi) as [[He Hv]|(He & Hij & Hv)].
  - rewrite (decide_False (P := Is_true (edge x j i)))
      by (apply Is_true_false_2, He).
    destruct (decide (i ≠ j)) as [Hij|Hij]; simpl; [|lra].
    destruct Hv as [->|Hv]; [done|]. rewrite Hv. lra.
  - rewrite (decide_True (P := Is_true (edge x j i)))
      by (apply Is_true_true_2, He).
    rewrite decide_True by done. simpl length.
    rewrite Nat2Z.inj_succ. unfold Z.succ. rewrite inject_Z_plus.
    simpl. rewrite Hv. lra.
Qed.

Hypothesis val_feasible :
  Forall (satisfies val) ((i ← range S; degree_constrs S i) ++ subtour_constrs S).

Lemma feasible_degree_one : degree_one x S = true.
Proof.
  apply Forall_app in val_feasible as [Hdeg _].
  rewrite Forall_bind, Forall_forall in Hdeg.
  unfold degree_one. apply forallb_forall. intros i Hi.
  apply list_elem_of_In in Hi. specialize (Hdeg i Hi).
  apply elem_of_seq in Hi.
  assert (Forall (λ j, j < S) (range S)) as Hrange.
  { apply Forall_forall. intros j Hj. apply elem_of_seq in Hj. lia. }
  apply Forall_cons_1 in Hdeg as [Hrow Hdeg].
  apply Forall_cons_1 in Hdeg as [Hcol _].
  unfold satisfies in Hrow, Hcol. simpl in Hrow, Hcol.
  rewrite row_sum in Hrow by (done || lia).
  rewrite col_sum in Hcol by (done || lia).
  apply (proj1 (inject_Z_injective _ _)) in Hrow.
  apply (proj1 (inject_Z_injective _ _)) in Hcol.
  apply andb_true_iff. split; apply Nat.eqb_eq; lia.
Qed.

Lemma feasible_successor_edge i :
  i < S → edge x i (successor x S i) = true.
Proof.
  intros Hi. pose proof feasible_degree_one as Hdeg.
  unfold degree_one in Hdeg. rewrite forallb_forall in Hdeg.
  specialize (Hdeg i). rewrite andb_true_iff, !Nat.eqb_eq in Hdeg.
  destruct Hdeg as [Hout _]; [apply in_seq; lia|].
  unfold successor.
  destruct (filter (λ j, edge x i j) (range S)) as [|j l] eqn:Hf; [done|].
  simpl. assert (j ∈ filter (λ j, edge x i j) (range S)) as Hin
    by (rewrite Hf; left).
  apply (list_elem_of_filter (λ j, edge x i j)) in Hin as [He _].
  by apply Is_true_true_1.
Qed.

Lemma feasible_successor_inj a b :
  a < S → b < S → successor x S a = successor x S b → a = b.
Proof.
  intros Ha Hb Hab. pose proof feasible_degree_one as Hdeg.
  pose proof (feasible_successor_edge a Ha) as Hea.
  pose proof (feasible_successor_edge b Hb) as Heb. rewrite <- Hab in Heb.
  set (c := successor x S a) in *.
  assert (c < S) as Hc by (by apply successor_lt).
  unfold degree_one in Hdeg. rewrite forallb_forall in Hdeg.
  specialize (Hdeg c). rewrite andb_true_iff, !Nat.eqb_eq in Hdeg.
  destruct Hdeg as [_ Hin]; [apply in_seq; lia|].
  assert (∀ j, j < S → edge x j c = true →
            j ∈ filter (λ j, edge x j c) (range S)) as Hmem.
  { intros j Hj He. apply (list_elem_of_filter (λ j, edge x j c)).
    split; [by apply Is_true_true_2|apply elem_of_seq; lia]. }
  pose proof (Hmem a Ha Hea) as Hina. pose proof (Hmem b Hb Heb) as Hinb.
  destruct (filter (λ j, edge x j c) (range S)) as [|j0 [|j1 l]];
    simplify_eq/=.
  apply list_elem_of_singleton in Hina, Hinb. congruence.
Qed.

(** The subtour elimination constraint along an activated edge between
    two slides other than slide 0. *)
Lemma feasible_u_increases a :
  1 ≤ a → a < S → 1 ≤ successor x S a →
  (val (u_ a) + 1 <= val (u_ (successor x S a)))%Q.
Proof.
  intros Ha1 Ha Hb1. pose proof (feasible_successor_edge a Ha) as He.
  set (b := successor x S a) in *.
  assert (b < S) as Hb by (by apply successor_lt).
  destruct (edge_binary a b Ha Hb) as [[He' _]|(_ & Hab & Hv)]; [congruence|].
  apply Forall_app in val_feasible as [_ Hsub].
  unfold subtour_constrs in Hsub.
  assert (a ∈ seq 1 (S - 1)) as Hina by (apply elem_of_seq; lia).
  assert (b ∈ seq 1 (S - 1)) as Hinb by (apply elem_of_seq; lia).
  rewrite Forall_bind, Forall_forall in Hsub.
  specialize (Hsub a Hina). simpl in Hsub.
  rewrite Forall_bind, Forall_forall in Hsub.
  specialize (Hsub b Hinb). simpl in Hsub.
  rewrite decide_True in Hsub by done. rewrite Forall_singleton in Hsub.
  unfold satisfies in Hsub. simpl in Hsub.
  unfold Z.sub in Hsub. rewrite inject_Z_plus, Hv in Hsub.
  set (s := inject_Z (Z.of_nat S)) in Hsub. unfold inject_Z in Hsub.
  change (Z.opp 1) with (Z.neg 1) in Hsub. lra.
Qed.
End feasible.

(** Values that are 0 or 1 on the edges and satisfy the degree and
    subtour elimination constraints of the model select a Hamiltonian
    cycle: the walk from slide 0. *)
Theorem feasible_hamiltonian (photos : list slide) (val : var → Q) :
  let S := length photos in
  let x : solved_matrix := val <$> addVars2 S in
  (∀ i j, (val (x_ i j) == 0 ∨ val (x_ i j) == 1)%Q) →
  feasible (build_model photos) val →
  degree_one x S = true ∧ hamiltonian_cycle x S (walk x S 0 S).
Proof.
  intros S x Hbin Hfeas. unfold feasible in Hfeas. simpl in Hfeas. fold S in Hfeas.
  split; [by apply feasible_degree_one|].
  destruct (decide (S = 0)) as [HS0|HS0].
  { rewrite HS0. by split. }
  set (f := successor x S).
  assert (walk x S 0 S = (λ k, Nat.iter k f 0) <$> seq 0 S) as Hwalk.
  { apply list_eq. intros k. destruct (decide (k < S)) as [Hk|Hk].
    - rewrite walk_lookup, list_lookup_fmap, lookup_seq_lt by done. done.
    - rewrite !lookup_ge_None_2; [done|..].
      + rewrite length_fmap, length_seq. lia.
      + rewrite walk_length. lia. }
  assert (∀ a, a < S → f a < S) as Hbound by (intros; by apply successor_lt).
  assert (∀ a b, a < S → b < S → f a = f b → a = b) as Hinj.
  { intros a b. by apply feasible_successor_inj. }
  assert (∀ a, 1 ≤ a → a < S → 1 ≤ f a →
            (val (u_ a) + 1 <= val (u_ (f a)))%Q) as Hu.
  { intros a. by apply feasible_u_increases. }
  split.
  - rewrite Hwalk. apply (orbit_Permutation f S (λ i, val (u_ i))); [lia|done..].
  - unfold cycle_edges. apply forallb_forall. intros k Hk.
    rewrite walk_length in Hk |- *. apply in_seq in Hk.
    rewrite !walk_lookup by (try apply Nat.mod_upper_bound; lia).
    fold f. destruct (decide (k + 1 < S)) as [Hk1|Hk1].
    + rewrite Nat.mod_small, Nat.add_1_r by done. simpl.
      apply (feasible_successor_edge val S Hbin Hfeas).
      apply iter_bound; [done|lia].
    + replace (k + 1) with S by lia. rewrite Nat.Div0.mod_same. simpl.
      rewrite <- (orbit_closes f S (λ i, val (u_ i))) at 2; [|lia|done..].
      rewrite (iter_pred f S) by lia. replace (S - 1) with k by lia.
      apply (feasible_successor_edge val S Hbin Hfeas).
      apply iter_bound; [done|lia].
Qed.

(** * Further properties of the code *)

(** ** More on the interest score *)

Lemma size_split (A B : tagset) : size A = size (A ∖ B) + size (A ∩ B).
Proof.
  rewrite <- size_union by set_solver.
  by rewrite difference_union_intersection_L.
Qed.

(** X1. The interest score of two tag sets is at most half the size of
    each of them; it is 0 between a set and itself, between a set and a
    larger set, and between two sets without a common tag. *)
Theorem compute_interest_bounds (A B : tagset) :
  2 * compute_interest A B ≤ size A
  ∧ 2 * compute_interest A B ≤ size B
  ∧ compute_interest A A = 0
  ∧ compute_interest A (A ∪ B) = 0
  ∧ compute_interest (A ∖ B) B = 0.
Proof.
  unfold compute_interest, min3. split_and!.
  - pose proof (size_split A B). lia.
  - pose proof (size_split B A).
    assert (B ∩ A = A ∩ B) as Hc by set_solver. rewrite Hc in *. lia.
  - assert (A ∖ A = ∅) as -> by set_solver. rewrite size_empty. lia.
  - assert (A ∖ (A ∪ B) = ∅) as -> by set_solver. rewrite size_empty. lia.
  - assert ((A ∖ B) ∩ B = ∅) as -> by set_solver. rewrite size_empty. lia.
Qed.

(** ** More on the loops *)

Lemma for_each_Ok_inv {A St : Type} (l : list A) (body : St → A → result St)
    st st' :
  for_each l body st = Ok st' →
  ∀ a, a ∈ l → ∃ s s', body s a = Ok s'.
Proof.
  revert st. induction l as [|b l IH]; intros st Hfor a Ha.
  { by apply elem_of_nil in Ha. }
  simpl in Hfor. destruct (body st b) as [st1| |] eqn:Hb; [|done..].
  simpl in Hfor. apply elem_of_cons in Ha as [->|Ha]; eauto.
Qed.

(** ** The parser on any input *)

Lemma read_photo_Ok_inv lines st i st' :
  read_photo lines st i = Ok st' →
  ∃ line, lines !! i = Some line ∧ line_parts line ≠ [].
Proof.
  destruct st as [photos vs]. unfold read_photo, index, line_parts.
  destruct (lines !! i) as [line|]; simpl; [|done].
  destruct (split (strip line)) as [|o parts] eqn:Hsplit; simpl; [done|].
  intros _. exists line. by rewrite Hsplit.
Qed.

Lemma int_cases (s : string) : (∃ z, int s = Ok z) ∨ int s = Raise ValueError.
Proof. unfold int. case_match; eauto. Qed.

Lemma pair_verticals_enough (vs : list vphoto) (photos : list slide) :
  pair_verticals (length vs) vs photos = Ok (photos ++ pair_up (reverse vs)).
Proof. apply pair_verticals_pair_up. lia. Qed.

Lemma read_input_records l0 rest N :
  int (strip l0) = Ok N →
  (N ≤ Z.of_nat (length rest))%Z →
  Forall (λ line, line_parts line ≠ []) (take (Z.to_nat N) rest) →
  read_input (l0 :: rest) = Ok (parsed_slides (take (Z.to_nat N) rest)).
Proof.
  intros HN Hle Hparts. unfold read_input. simpl. rewrite HN. simpl.
  set (n := Z.to_nat N) in *.
  pose proof (read_photos_loop l0 (take n rest) (drop n rest) Hparts) as Hloop.
  rewrite take_drop, length_take_le in Hloop by lia.
  rewrite Hloop. simpl. apply pair_verticals_enough.
Qed.

Lemma read_input_Ok_inv lines photos :
  read_input lines = Ok photos →
  ∃ l0 rest N,
    lines = l0 :: rest
    ∧ int (strip l0) = Ok N
    ∧ (N ≤ Z.of_nat (length rest))%Z
    ∧ Forall (λ line, line_parts line ≠ []) (take (Z.to_nat N) rest)
    ∧ photos = parsed_slides (take (Z.to_nat N) rest).
Proof.
  intros Hread. destruct lines as [|l0 rest]; [done|].
  pose proof Hread as Hread0.
  unfold read_input in Hread. simpl in Hread.
  destruct (int (strip l0)) as [N| |] eqn:HN; [|done..]. simpl in Hread.
  destruct (for_each (seq 1 (Z.to_nat N)) (read_photo (l0 :: rest)) ([], []))
    as [[hs vs]| |] eqn:Hloop; [|done..].
  assert (∀ i, 1 ≤ i ≤ Z.to_nat N →
            ∃ line, rest !! (i - 1) = Some line ∧ line_parts line ≠ []) as Hrecs.
  { intros i Hi.
    destruct (for_each_Ok_inv _ _ _ _ Hloop i) as (s & s' & Hs).
    { apply elem_of_seq. lia. }
    apply read_photo_Ok_inv in Hs as (line & Hline & Hparts).
    destruct i as [|i]; [lia|]. simpl in Hline.
    exists line. by replace (S i - 1) with i by lia. }
  assert (N ≤ Z.of_nat (length rest))%Z as Hle.
  { destruct (decide (Z.to_nat N = 0)) as [H0|H0]; [lia|].
    destruct (Hrecs (Z.to_nat N)) as (line & Hline & _); [lia|].
    apply lookup_lt_Some in Hline. lia. }
  assert (Forall (λ line, line_parts line ≠ []) (take (Z.to_nat N) rest))
    as Hparts.
  { apply Forall_lookup. intros i line Hi.
    apply lookup_take_Some in Hi as [Hi Hlt].
    destruct (Hrecs (S i)) as (line' & Hline' & Hp); [lia|].
    replace (S i - 1) with i in Hline' by lia. congruence. }
  exists l0, rest, N. split_and!; [done..|].
  rewrite (read_input_records l0 rest N HN Hle Hparts) in Hread0. congruence.
Qed.

(** X2. [read_input] returns a slide list exactly when the input has a
    first line that is an integer N, at least N lines after it, and no
    blank line among the first N of them; the list is then made of the
    slides of the records whose first token is [H], in input order,
    followed by the pairs of all the other records (whatever their first
    token), taken from the end of their stable descending sort. *)
Theorem read_input_Ok_iff (lines : list string) (photos : list slide) :
  read_input lines = Ok photos ↔
  ∃ l0 rest N,
    lines = l0 :: rest
    ∧ int (strip l0) = Ok N
    ∧ (N ≤ Z.of_nat (length rest))%Z
    ∧ Forall (λ line, line_parts line ≠ []) (take (Z.to_nat N) rest)
    ∧ photos
      = horizontal_slides 0 (take (Z.to_nat N) rest)
        ++ pair_up (reverse (sort_reverse (λ p : vphoto, size p.2)
                               (vertical_photos 0 (take (Z.to_nat N) rest)))).
Proof.
  split.
  - apply read_input_Ok_inv.
  - intros (l0 & rest & N & -> & HN & Hle & Hparts & ->).
    by apply read_input_records.
Qed.

Lemma for_each_read_photo_cases lines l st :
  (∃ st', for_each l (read_photo lines) st = Ok st')
  ∨ for_each l (read_photo lines) st = Raise IndexError.
Proof.
  revert st. induction l as [|i l IH]; intros st; simpl; [eauto|].
  destruct (read_photo_cases lines st i) as [(st' & -> & _)| ->]; simpl; auto.
Qed.

(** X3. Once the lines of the file are read, the rest of [read_input]
    (from [N = int(lines[0].strip())] to the [return]) returns a slide
    list or raises one of two errors: [IndexError] when there is no line,
    [ValueError] when the first line is not an integer, and [IndexError]
    when the first line is an integer N but fewer than N lines follow or
    one of the first N is blank. The errors that [open] and [readlines]
    raise before are not covered. *)
Theorem read_input_errors (l0 : string) (rest : list string) :
  read_input [] = Raise IndexError
  ∧ (int (strip l0) = Raise ValueError →
       read_input (l0 :: rest) = Raise ValueError)
  ∧ (∀ N, int (strip l0) = Ok N →
       ¬ ((N ≤ Z.of_nat (length rest))%Z
          ∧ Forall (λ line, line_parts line ≠ []) (take (Z.to_nat N) rest)) →
       read_input (l0 :: rest) = Raise IndexError)
  ∧ ((∃ photos, read_input (l0 :: rest) = Ok photos)
     ∨ read_input (l0 :: rest) = Raise IndexError
     ∨ read_input (l0 :: rest) = Raise ValueError).
Proof.
  assert (∀ N, int (strip l0) = Ok N →
            (∃ photos, read_input (l0 :: rest) = Ok photos)
            ∨ read_input (l0 :: rest) = Raise IndexError) as Hcases.
  { intros N HN. unfold read_input. simpl. rewrite HN. simpl.
    destruct (for_each_read_photo_cases (l0 :: rest) (seq 1 (Z.to_nat N)) ([], []))
      as [([hs vs] & ->)| ->]; simpl; [|by right].
    left. rewrite pair_verticals_enough. eauto. }
  split_and!.
  - done.
  - intros HN. unfold read_input. simpl. by rewrite HN.
  - intros N HN Hbad. destruct (Hcases N HN) as [[photos Hok]|]; [|done].
    exfalso. apply Hbad.
    apply read_input_Ok_inv in Hok
      as (l0' & rest' & N' & [= <- <-] & HN' & Hle & Hparts & _).
    rewrite HN in HN'. injection HN' as <-. done.
  - destruct (int_cases (strip l0)) as [[N HN]|HN].
    + destruct (Hcases N HN); auto.
    + right; right. unfold read_input. simpl. by rewrite HN.
Qed.

Lemma read_input_errors_witness :
  read_input ["x"; "H 1 a"] = Raise ValueError
  ∧ read_input ["2"; "H 1 a"; "   "] = Raise IndexError.
Proof.
  split.
  - destruct (read_input_errors "x" ["H 1 a"]) as (_ & Hvalue & _).
    apply Hvalue. reflexivity.
  - destruct (read_input_errors "2" ["H 1 a"; "   "]) as (_ & _ & Hindex & _).
    apply (Hindex 2%Z); [reflexivity|].
    intros [_ Hparts]. apply Forall_cons_1 in Hparts as [_ Hparts].
    apply Forall_cons_1 in Hparts as [Hblank _]. by apply Hblank.
Defined.

(** ** The photo indices of the slides *)

Lemma records_indices i recs :
  concat ((λ s : slide, s.1) <$> horizontal_slides i recs)
  ++ ((λ p : vphoto, p.1) <$> vertical_photos i recs)
  ≡ₚ seq i (length recs).
Proof.
  revert i. induction recs as [|line recs IH]; intros i; simpl; [done|].
  destruct (is_horizontal line); simpl.
  - by rewrite IH.
  - rewrite <- Permutation_middle. by rewrite IH.
Qed.

Lemma parsed_slides_indices recs :
  concat ((λ s : slide, s.1) <$> parsed_slides recs) ⊆+ seq 0 (length recs).
Proof.
  unfold parsed_slides. rewrite fmap_app, concat_app, <- records_indices.
  apply submseteq_skips_l. rewrite pair_up_indices.
  trans ((λ p : vphoto, p.1) <$>
           reverse (sort_reverse (λ p : vphoto, size p.2) (vertical_photos 0 recs))).
  - apply fmap_submseteq, sublist_submseteq, sublist_take.
  - by rewrite reverse_Permutation, sort_reverse_Permutation.
Qed.

Lemma horizontal_slides_singletons i recs :
  Forall (λ s : slide, length s.1 = 1) (horizontal_slides i recs).
Proof.
  revert i. induction recs as [|line recs IH]; intros i; simpl; [done|].
  destruct (is_horizontal line); auto.
Qed.

Lemma pair_up_pairs l : Forall (λ s : slide, length s.1 = 2) (pair_up l).
Proof.
  induction l as [l IH] using (induction_ltof1 _ length).
  destruct l as [|p1 [|p2 l]]; simpl; [done..|].
  constructor; [done|]. apply IH. unfold ltof. simpl. lia.
Qed.

Lemma horizontal_slides_length i recs :
  length (horizontal_slides i recs) + length (vertical_photos i recs)
  = length recs.
Proof.
  revert i. induction recs as [|line recs IH]; intros i; simpl; [done|].
  destruct (is_horizontal line); simpl; rewrite <- (IH (S i)); lia.
Qed.

Lemma submseteq_NoDup {A : Type} (l k : list A) : l ⊆+ k → NoDup k → NoDup l.
Proof.
  intros Hsub Hnd. apply submseteq_Permutation in Hsub as [k' Hk].
  rewrite Hk in Hnd. by apply NoDup_app in Hnd as [? _].
Qed.

(** X4. In the slide list that [read_input] returns, every slide has one
    or two photo indices, no photo index occurs twice, every index is
    below the declared photo count N, and there are at most N slides. *)
Theorem read_input_indices (lines : list string) (photos : list slide) :
  read_input lines = Ok photos →
  ∃ l0 N,
    head lines = Some l0 ∧ int (strip l0) = Ok N
    ∧ Forall (λ s : slide, length s.1 = 1 ∨ length s.1 = 2) photos
    ∧ NoDup (concat ((λ s : slide, s.1) <$> photos))
    ∧ (∀ i, i ∈ concat ((λ s : slide, s.1) <$> photos) → (Z.of_nat i < N)%Z)
    ∧ (Z.of_nat (length photos) ≤ Z.max 0 N)%Z.
Proof.
  intros Hread.
  apply read_input_Ok_inv in Hread as (l0 & rest & N & -> & HN & Hle & _ & ->).
  exists l0, N. set (recs := take (Z.to_nat N) rest).
  assert (length recs = Z.to_nat N) as Hlen.
  { unfold recs. rewrite length_take. lia. }
  pose proof (parsed_slides_indices recs) as Hsub.
  split_and!; [done..| | | |].
  - unfold parsed_slides. apply Forall_app. split.
    + eapply Forall_impl; [apply horizontal_slides_singletons|]. simpl. auto.
    + eapply Forall_impl; [apply pair_up_pairs|]. simpl. auto.
  - eapply submseteq_NoDup; [done|]. apply NoDup_seq.
  - intros i Hi. eapply elem_of_submseteq in Hi; [|done].
    apply elem_of_seq in Hi. lia.
  - unfold parsed_slides. rewrite length_app, pair_up_length, length_reverse.
    rewrite (Permutation_length (sort_reverse_Permutation _ _)).
    pose proof (horizontal_slides_length 0 recs).
    assert (length (vertical_photos 0 recs) / 2
            ≤ length (vertical_photos 0 recs)) by (apply Nat.Div0.div_le_upper_bound; lia).
    lia.
Qed.

Lemma read_input_indices_witness :
  ∃ l0 N,
    head lines_5 = Some l0 ∧ int (strip l0) = Ok N
    ∧ NoDup (concat ((λ s : slide, s.1) <$> photos_5))
    ∧ (Z.of_nat (length photos_5) ≤ Z.max 0 N)%Z.
Proof.
  destruct (read_input_indices lines_5 photos_5)
    as (l0 & N & Hhd & HN & _ & Hnd & _ & Hlen).
  - vm_compute. reflexivity.
  - exists l0, N. by split_and!.
Defined.

(** ** The dict of the slides *)

Lemma sorted_Permutation (l : list nat) : sorted l ≡ₚ l.
Proof. apply merge_sort_Permutation. Qed.

Lemma elem_of_concat {A : Type} (x : A) (ls : list (list A)) :
  x ∈ concat ls ↔ ∃ l, x ∈ l ∧ l ∈ ls.
Proof.
  rewrite list_elem_of_In, in_concat. split.
  - intros (l & Hl & Hx). exists l. by rewrite !list_elem_of_In.
  - intros (l & Hx & Hl). exists l. by rewrite <- !list_elem_of_In.
Qed.

(** Slides without a common photo index, none of them without index,
    have different keys. *)
Lemma slide_keys_NoDup (photos : list slide) :
  Forall (λ s : slide, s.1 ≠ []) photos →
  NoDup (concat ((λ s : slide, s.1) <$> photos)) →
  NoDup ((λ s : slide, sorted s.1) <$> photos).
Proof.
  induction photos as [|p photos IH]; simpl; intros Hne Hnd; [constructor|].
  apply Forall_cons_1 in Hne as [Hp Hne].
  apply NoDup_app in Hnd as (_ & Hdisj & Hnd).
  constructor; [|by apply IH].
  intros Hin. apply list_elem_of_fmap in Hin as (q & Hq & Hin).
  destruct p as [[|i idx] tags]; [done|]. simpl in *.
  apply (Hdisj i); [left|].
  apply elem_of_concat. exists q.1. split.
  - rewrite <- (sorted_Permutation q.1), <- Hq, sorted_Permutation. left.
  - apply list_elem_of_fmap. by exists q.
Qed.

(** X5. On the slide list that [read_input] returns, the dict that
    [main] builds maps the key of every slide, the sorted tuple of its
    photo indices, to the tags of that slide: no slide is replaced by
    another one of the same key. *)
Lemma read_input_keys_NoDup (lines : list string) (photos : list slide) :
  read_input lines = Ok photos →
  NoDup ((λ s : slide, sorted s.1) <$> photos).
Proof.
  intros Hread.
  apply read_input_Ok_inv in Hread as (l0 & rest & N & -> & HN & Hle & _ & ->).
  set (recs := take (Z.to_nat N) rest).
  apply slide_keys_NoDup.
  - unfold parsed_slides. apply Forall_app. split.
    + eapply Forall_impl; [apply horizontal_slides_singletons|].
      intros s Hs Hnil. simpl in Hs, Hnil. by rewrite Hnil in Hs.
    + eapply Forall_impl; [apply pair_up_pairs|].
      intros s Hs Hnil. simpl in Hs, Hnil. by rewrite Hnil in Hs.
  - eapply submseteq_NoDup; [apply parsed_slides_indices|]. apply NoDup_seq.
Qed.

Theorem read_input_photos_dict (lines : list string) (photos : list slide)
    (c : nat) (p : slide) :
  read_input lines = Ok photos →
  photos !! c = Some p →
  make_photos_dict photos !! sorted p.1 = Some p.2.
Proof.
  intros Hread Hc. apply (make_photos_dict_lookup photos c); [|done].
  by eapply read_input_keys_NoDup.
Qed.

Lemma read_input_photos_dict_witness :
  make_photos_dict photos_5 !! sorted [2; 0] = Some {["a"; "b"; "d"]}.
Proof.
  assert (read_input lines_5 = Ok photos_5) as Hread by (vm_compute; reflexivity).
  exact (read_input_photos_dict lines_5 photos_5 2 ([2; 0], {["a"; "b"; "d"]})
           Hread eq_refl).
Defined.

(** ** More on the tour extraction *)

Lemma extract_loop_inv x photos S l order c order' c' :
  for_each l (extract_step x photos S) (order, c) = Ok (order', c') →
  ∃ new, order' = order ++ new ∧ length new = length l
         ∧ Forall (λ e, ∃ p : slide, p ∈ photos ∧ e = sorted p.1) new.
Proof.
  revert order c. induction l as [|a l IH]; intros order c Hfor; simpl in Hfor.
  { injection Hfor as <- <-. exists []. by rewrite app_nil_r. }
  unfold index in Hfor.
  destruct (photos !! c) as [photo|] eqn:Hphoto; [|done]. simpl in Hfor.
  destruct (next_slide x c (range S)) as [c1| |]; [|done..]. simpl in Hfor.
  apply IH in Hfor as (new & -> & Hlen & Hall).
  exists (sorted photo.1 :: new). split_and!.
  - by rewrite <- (assoc_L (++)).
  - simpl. by rewrite Hlen.
  - constructor; [|done]. exists photo. split; [|done].
    by eapply list_elem_of_lookup_2.
Qed.

(** X6. Whenever the extraction returns an order, the order has S
    entries and each entry is the ascending sort of the photo indices of
    a slide of the list. *)
Theorem extract_entries (x : solved_matrix) (photos : list slide) (S : nat)
    (order : list (list nat)) :
  extract_slideshow_from_gurobi x photos S = Ok order →
  length order = S
  ∧ Forall (λ e, Sorted (≤) e ∧ ∃ p : slide, p ∈ photos ∧ e ≡ₚ p.1) order.
Proof.
  unfold extract_slideshow_from_gurobi. intros Hex.
  destruct (for_each (range S) (extract_step x photos S) ([], 0))
    as [[order' c']| |] eqn:Hfor; [|done..].
  simpl in Hex. injection Hex as ->.
  apply extract_loop_inv in Hfor as (new & -> & Hlen & Hall). simpl. split.
  - unfold range in Hlen. by rewrite length_seq in Hlen.
  - eapply Forall_impl; [done|]. intros e (p & Hp & ->). split.
    + apply Sorted_merge_sort. apply _.
    + exists p. split; [done|]. apply sorted_Permutation.
Qed.

Lemma extract_entries_witness :
  length [[0]; [2]; [1]] = 3
  ∧ Forall (λ e, Sorted (≤) e ∧ ∃ p : slide, p ∈ photos_3 ∧ e ≡ₚ p.1)
           [[0]; [2]; [1]].
Proof.
  apply (extract_entries x_cycle photos_3 3). vm_compute. reflexivity.
Defined.

(** X7. The extraction over zero slides returns the empty order for any
    matrix; over one slide or more it raises [IndexError] when the slide
    list is empty, and over two slides or more it raises [KeyError] when
    the matrix has no key [(0, 1)]. *)
Theorem extract_errors (x : solved_matrix) (photos : list slide) (S : nat) :
  extract_slideshow_from_gurobi x photos 0 = Ok []
  ∧ (0 < S → extract_slideshow_from_gurobi x [] S = Raise IndexError)
  ∧ (2 ≤ S → photos ≠ [] → x !! (0, 1) = None →
       extract_slideshow_from_gurobi x photos S = Raise KeyError).
Proof.
  split_and!.
  - done.
  - intros HS. destruct S as [|S']; [lia|]. done.
  - intros HS Hphotos Hkey. destruct S as [|[|S']]; [lia..|].
    destruct photos as [|photo photos]; [done|].
    unfold extract_slideshow_from_gurobi, range. simpl.
    unfold next_slide. simpl. unfold getitem. by rewrite Hkey.
Qed.

Lemma extract_errors_witness :
  extract_slideshow_from_gurobi ∅ [] 2 = Raise IndexError
  ∧ extract_slideshow_from_gurobi ∅ photos_2 2 = Raise KeyError.
Proof.
  split.
  - destruct (extract_errors ∅ [] 2) as (_ & Hindex & _). apply Hindex. lia.
  - destruct (extract_errors ∅ photos_2 2) as (_ & _ & Hkey).
    apply Hkey; [lia|discriminate|reflexivity].
Defined.

(** X8. Subtours are not detected: when the walk from slide 0 is back at
    slide 0 after T steps, the extracted order repeats itself with period
    T, for as long as it has entries. *)
Theorem extract_subtour (x : solved_matrix) (photos : list slide) (S T : nat) :
  keys_defined x S = true →
  S ≤ length photos →
  Nat.iter T (successor x S) 0 = 0 →
  ∃ order,
    extract_slideshow_from_gurobi x photos S = Ok order
    ∧ ∀ k, k + T < S → order !! (k + T) = order !! k.
Proof.
  intros Hkeys HS HT. exists (slide_key photos <$> walk x S 0 S). split.
  - by apply extract_walk.
  - intros k Hk. rewrite !list_lookup_fmap, !walk_lookup by lia. simpl.
    by rewrite Nat.iter_add, HT.
Qed.

Lemma extract_subtour_witness :
  ∃ order,
    extract_slideshow_from_gurobi x_two_cycles photos_4 4 = Ok order
    ∧ ∀ k, k + 2 < 4 → order !! (k + 2) = order !! k.
Proof.
  apply (extract_subtour x_two_cycles photos_4 4 2).
  - reflexivity.
  - simpl. lia.
  - reflexivity.
Defined.

(** ** More on the score audit *)

Lemma path_score_cons (a b : tagset) (l : list tagset) :
  path_score (a :: b :: l) = compute_interest a b + path_score (b :: l).
Proof. reflexivity. Qed.

Lemma path_score_snoc (l : list tagset) (a b : tagset) :
  path_score (l ++ [a; b]) = path_score (l ++ [a]) + compute_interest a b.
Proof.
  induction l as [|c l IH]; [unfold path_score; simpl; lia|].
  destruct l as [|d l].
  - unfold path_score. simpl. lia.
  - simpl app in *. rewrite !path_score_cons, IH. lia.
Qed.

Lemma compute_interest_swap (A B : tagset) :
  compute_interest B A = compute_interest A B.
Proof.
  unfold compute_interest, min3.
  assert (B ∩ A = A ∩ B) as -> by set_solver. lia.
Qed.

Lemma path_score_reverse (l : list tagset) :
  path_score (reverse l) = path_score l.
Proof.
  induction l as [|a l IH]; [done|].
  destruct l as [|b l]; [done|].
  rewrite path_score_cons, <- IH, !reverse_cons, <- (assoc_L (++)). simpl.
  rewrite path_score_snoc, compute_interest_swap. lia.
Qed.

(** The audit raises nothing but [KeyError]. *)
Lemma analyze_loop_cases (order : list (list nat)) (d : photos_dict)
    (i n total : nat) :
  i + n ≤ length order - 1 →
  (∃ score, for_each (seq i n)
      (λ total_score i,
         k1 ← index order i;
         t1 ← getitem d k1;
         k2 ← index order (i + 1);
         t2 ← getitem d k2;
         Ok (total_score + compute_interest t1 t2))
      total = Ok score)
  ∨ for_each (seq i n)
      (λ total_score i,
         k1 ← index order i;
         t1 ← getitem d k1;
         k2 ← index order (i + 1);
         t2 ← getitem d k2;
         Ok (total_score + compute_interest t1 t2))
      total = Raise KeyError.
Proof.
  revert i total. induction n as [|n IH]; intros i total Hin; simpl; [eauto|].
  destruct (lookup_lt_is_Some_2 order i) as [k1 Hk1]; [lia|].
  destruct (lookup_lt_is_Some_2 order (i + 1)) as [k2 Hk2]; [lia|].
  rewrite (index_Ok _ _ _ Hk1), (index_Ok _ _ _ Hk2). unfold getitem. simpl.
  destruct (d !! k1); simpl; [|by right].
  destruct (d !! k2); simpl; [|by right].
  apply IH. lia.
Qed.

Lemma analyze_transitions_cases (order : list (list nat)) (d : photos_dict) :
  (∃ score, analyze_transitions order d = Ok score)
  ∨ analyze_transitions order d = Raise KeyError.
Proof. apply analyze_loop_cases. simpl. lia. Qed.

Lemma analyze_transitions_Ok_inv (order : list (list nat)) (d : photos_dict)
    (score : nat) :
  2 ≤ length order →
  analyze_transitions order d = Ok score →
  Forall (λ key, is_Some (d !! key)) order.
Proof.
  intros Hlen Hok. apply Forall_lookup. intros p key Hkey.
  pose proof (lookup_lt_Some _ _ _ Hkey) as Hp.
  assert (∀ i, i < length order - 1 →
            ∃ k1 k2, order !! i = Some k1 ∧ order !! (i + 1) = Some k2
                     ∧ is_Some (d !! k1) ∧ is_Some (d !! k2)) as Hstep.
  { intros i Hi.
    destruct (for_each_Ok_inv _ _ _ _ Hok i) as (s & s' & Hs).
    { apply elem_of_seq. lia. }
    unfold index, getitem in Hs.
    destruct (order !! i) as [k1|]; [|done]. simpl in Hs.
    destruct (d !! k1) eqn:Hd1; [|done]. simpl in Hs.
    destruct (order !! (i + 1)) as [k2|]; [|done]. simpl in Hs.
    destruct (d !! k2) eqn:Hd2; [|done].
    exists k1, k2. by rewrite Hd1, Hd2. }
  destruct (decide (p < length order - 1)) as [Hlt|Hge].
  - destruct (Hstep p Hlt) as (k1 & k2 & H1 & _ & Hs1 & _). congruence.
  - destruct (Hstep (p - 1)) as (k1 & k2 & _ & H2 & _ & Hs2); [lia|].
    replace (p - 1 + 1) with p in H2 by lia. congruence.
Qed.

(** X9. On an order of two slides or more, the audit raises [KeyError]
    as soon as one key of the order is missing from the dict, wherever it
    is in the order; it never raises another exception. *)
Theorem analyze_transitions_KeyError (order : list (list nat))
    (d : photos_dict) (key : list nat) :
  2 ≤ length order →
  key ∈ order →
  d !! key = None →
  analyze_transitions order d = Raise KeyError
  ∧ ∀ order' d', analyze_transitions order' d' ≠ Raise IndexError
                 ∧ analyze_transitions order' d' ≠ Raise ValueError
                 ∧ analyze_transitions order' d' ≠ OutOfFuel.
Proof.
  intros Hlen Hkey Hnone. split.
  - destruct (analyze_transitions_cases order d) as [[score Hok]|]; [|done].
    apply analyze_transitions_Ok_inv in Hok; [|done].
    eapply Forall_forall in Hok; [|done]. rewrite Hnone in Hok.
    by destruct Hok.
  - intros order' d'.
    destruct (analyze_transitions_cases order' d') as [[score ->]| ->]; done.
Qed.

Lemma analyze_transitions_KeyError_witness :
  analyze_transitions [[0]; [1]; [7]] (make_photos_dict photos_2)
  = Raise KeyError.
Proof.
  apply (analyze_transitions_KeyError [[0]; [1]; [7]] (make_photos_dict photos_2)
           [7]).
  - simpl. lia.
  - apply list_elem_of_In. simpl. auto.
  - reflexivity.
Defined.

(** X10. The audit gives the same result on an order and on the order
    read backwards: the same score, or the same [KeyError]. *)
Theorem analyze_transitions_reverse (order : list (list nat)) (d : photos_dict) :
  analyze_transitions (reverse order) d = analyze_transitions order d.
Proof.
  destruct (decide (length order ≤ 1)) as [Hshort|Hlong].
  { unfold analyze_transitions. rewrite length_reverse.
    by replace (length order - 1) with 0 by lia. }
  destruct (decide (Forall (λ key, is_Some (d !! key)) order)) as [Hall|Hmiss].
  - assert (∃ tags, Forall2 (λ key t, d !! key = Some t) order tags)
      as [tags Htags].
    { clear Hlong. induction Hall as [|key order [t Ht] _ [tags IH]].
      - exists []. constructor.
      - exists (t :: tags). by constructor. }
    rewrite (analyze_transitions_sum order d tags Htags).
    rewrite (analyze_transitions_sum (reverse order) d (reverse tags))
      by by apply Forall2_reverse.
    by rewrite path_score_reverse.
  - apply (not_Forall_Exists _) in Hmiss.
    apply Exists_exists in Hmiss as (key & Hkey & Hnone).
    simpl in Hnone.
    assert (d !! key = None) as Hd.
    { destruct (d !! key) eqn:Hd; [|done]. exfalso. apply Hnone. eauto. }
    assert (∀ o, 2 ≤ length o → key ∈ o →
              analyze_transitions o d = Raise KeyError) as Hraise.
    { intros o Hlen Hin.
      destruct (analyze_transitions_cases o d) as [[score Hok]|]; [|done].
      apply analyze_transitions_Ok_inv in Hok; [|done].
      eapply Forall_forall in Hok; [|done]. rewrite Hd in Hok.
      by destruct Hok. }
    rewrite (Hraise order) by (done || lia).
    rewrite (Hraise (reverse order)); [done| |].
    + rewrite length_reverse. lia.
    + by apply elem_of_reverse.
Qed.

(** ** The objective of a tour *)

Lemma eval_expr_bind {A : Type} (val : var → Q) (l : list A)
    (g : A → LinExpr) (h : A → nat) :
  (∀ a, a ∈ l → (eval_expr val (g a) == inject_Z (Z.of_nat (h a)))%Q) →
  (eval_expr val (a ← l; g a)
   == inject_Z (Z.of_nat (sum_list_with h l)))%Q.
Proof.
  induction l as [|a l IH]; intros Hg; [done|].
  rewrite bind_cons, eval_expr_app, Hg, IH
    by (by left || (intros; apply Hg; by right)).
  simpl sum_list_with. rewrite Nat2Z.inj_add, inject_Z_plus. lra.
Qed.

(** The sum of the interests along the first [n + 1] slides of a walk,
    each slide with its successor, is the open-path score of these
    slides plus the interest of the last one with its successor. *)
Lemma walk_sum (x : solved_matrix) (S : nat) (tg : nat → tagset) (a n : nat) :
  sum_list_with (λ i, compute_interest (tg i) (tg (successor x S i)))
    (walk x S a (Datatypes.S n))
  = path_score (tg <$> walk x S a (Datatypes.S n))
    + compute_interest (tg (Nat.iter n (successor x S) a))
        (tg (successor x S (Nat.iter n (successor x S) a))).
Proof.
  revert a. induction n as [|n IH]; intros a.
  - unfold path_score. simpl. lia.
  - change (walk x S a (Datatypes.S (Datatypes.S n)))
      with (a :: walk x S (successor x S a) (Datatypes.S n)).
    cbn [sum_list_with]. rewrite IH.
    change (walk x S (successor x S a) (Datatypes.S n))
      with (successor x S a
              :: walk x S (successor x S (successor x S a)) n).
    rewrite !fmap_cons, path_score_cons, (iter_succ_r _ n). lia.
Qed.

Section objective.
Context (val : var → Q) (S : nat).
Hypothesis val_binary : ∀ i j, (val (x_ i j) == 0 ∨ val (x_ i j) == 1)%Q.
Hypothesis val_feasible :
  Forall (satisfies val) ((i ← range S; degree_constrs S i) ++ subtour_constrs S).

Local Abbreviation x := (val <$> addVars2 S).

(** In a row of the objective only the term of the activated edge
    counts. *)
Lemma objective_row (w : nat → nat) (i : nat) (js : list nat) :
  i < S → Forall (λ j, j < S) js → NoDup js →
  (eval_expr val
     (j ← js; if decide (i ≠ j) then [(Z.of_nat (w j), x_ i j)] else [])
   == inject_Z (Z.of_nat (if decide (successor x S i ∈ js)
                          then w (successor x S i) else 0)))%Q.
Proof.
  intros Hi Hjs Hnd.
  pose proof (feasible_degree_one val S val_binary val_feasible) as Hdeg.
  pose proof (feasible_successor_edge val S val_binary val_feasible i Hi) as Hef.
  set (fi := successor x S i) in *.
  assert (i ≠ fi) as Hifi.
  { intros Heq. unfold edge in Hef. rewrite <- Heq in Hef.
    by rewrite bool_decide_eq_false_2 in Hef by naive_solver. }
  induction Hjs as [|j js Hj Hjs IH]; [done|].
  apply NoDup_cons in Hnd as [Hjnin Hnd].
  rewrite bind_cons, eval_expr_app, IH by done.
  destruct (edge_binary val S val_binary i j Hi Hj) as [[He Hv]|(He & Hij & Hv)].
  - assert (fi ≠ j) as Hne by (intros <-; congruence).
    assert (eval_expr val
              (if decide (i ≠ j) then [(Z.of_nat (w j), x_ i j)] else []) == 0)%Q
      as ->.
    { destruct (decide (i ≠ j)) as [Hij|Hij]; simpl; [|lra].
      destruct Hv as [->|Hv]; [done|]. rewrite Hv, Qmult_0_r. lra. }
    destruct (decide (fi ∈ js)) as [Hin|Hnin].
    + rewrite decide_True by (by right). lra.
    + rewrite decide_False; [lra|]. intros [?|?]%elem_of_cons; done.
  - assert (fi = j) as Hfj.
    { apply degree_one_successor; [done..]. }
    rewrite decide_True by done. simpl. rewrite Hv, Qmult_1_r.
    rewrite (decide_False (P := fi ∈ js)) by congruence.
    rewrite (decide_True (P := fi ∈ j :: js)) by (rewrite Hfj; left).
    rewrite Hfj. simpl. change (inject_Z (Z.of_nat 0)) with 0%Q. lra.
Qed.

(** The objective of the model at a feasible 0-1 point: the sum over the
    slides of the interest between a slide and its successor. *)
Lemma objective_sum (photos : list slide) :
  length photos = S →
  (eval_expr val (build_objective photos)
   == inject_Z (Z.of_nat
        (sum_list_with
           (λ i, compute_interest (photos !!! i).2
                   (photos !!! successor x S i).2)
           (range S))))%Q.
Proof.
  intros Hlen. unfold build_objective. rewrite Hlen.
  apply eval_expr_bind. intros i Hi. apply elem_of_seq in Hi.
  rewrite (objective_row
             (λ j, compute_interest (photos !!! i).2 (photos !!! j).2) i (range S)).
  - rewrite decide_True; [done|]. apply elem_of_seq.
    pose proof (successor_lt x S i). lia.
  - lia.
  - apply Forall_forall. intros j Hj. apply elem_of_seq in Hj. lia.
  - apply NoDup_seq.
Qed.
End objective.

(** After S steps along the activated edges of a feasible 0-1 point the
    walk from slide 0 is back at slide 0. *)
Lemma feasible_walk_closes (val : var → Q) (S : nat) :
  (∀ i j, (val (x_ i j) == 0 ∨ val (x_ i j) == 1)%Q) →
  Forall (satisfies val) ((i ← range S; degree_constrs S i) ++ subtour_constrs S) →
  0 < S →
  Nat.iter S (successor (val <$> addVars2 S) S) 0 = 0.
Proof.
  intros Hbin Hfeas HS.
  apply (orbit_closes _ S (λ i, val (u_ i))); [done|..].
  - intros a Ha. by apply successor_lt.
  - intros a b. by apply feasible_successor_inj.
  - intros a. by apply feasible_u_increases.
Qed.

(** X11. At values that are 0 or 1 on the edges and satisfy the
    constraints of the model, the objective of the model is the score
    that the audit computes on the extracted order plus the interest
    between the last slide of the order and slide 0: the closing edge of
    the tour counts in the objective and not in the audited score. *)
Theorem objective_path_score (photos : list slide) (val : var → Q) :
  let S := length photos in
  let x : solved_matrix := val <$> addVars2 S in
  0 < S →
  (∀ i j, (val (x_ i j) == 0 ∨ val (x_ i j) == 1)%Q) →
  feasible (build_model photos) val →
  NoDup ((λ p : slide, sorted p.1) <$> photos) →
  ∃ order score c_last,
    extract_slideshow_from_gurobi x photos S = Ok order
    ∧ analyze_transitions order (make_photos_dict photos) = Ok score
    ∧ last (walk x S 0 S) = Some c_last
    ∧ (eval_expr val (objective (build_model photos))
       == inject_Z (Z.of_nat
            (score + compute_interest (photos !!! c_last).2
                       (photos !!! 0%nat).2)%nat))%Q.
Proof.
  intros S x HS Hbin Hfeas Hkeys.
  destruct (feasible_hamiltonian photos val Hbin Hfeas) as [_ [Hperm _]].
  unfold feasible in Hfeas. simpl in Hfeas. fold S x in Hfeas, Hperm.
  set (f := successor x S). set (w := walk x S 0 S) in *.
  set (tg := λ c : nat, (photos !!! c).2).
  exists (slide_key photos <$> w), (path_score (tg <$> w)),
    (Nat.iter (S - 1) f 0).
  split_and!.
  - apply extract_walk; [apply keys_defined_addVars2|done].
  - apply analyze_transitions_extracted; [done|].
    apply Forall_forall. intros c Hc. rewrite Hperm in Hc.
    apply elem_of_seq in Hc. fold S. lia.
  - unfold w. rewrite last_lookup, walk_length.
    rewrite walk_lookup by lia. by replace (Init.Nat.pred S) with (S - 1) by lia.
  - simpl objective. rewrite (objective_sum val S Hbin Hfeas photos eq_refl).
    fold x. rewrite <- Hperm.
    pose proof (walk_sum x S tg 0 (S - 1)) as Hsum.
    replace (Datatypes.S (S - 1)) with S in Hsum by lia.
    fold f w in Hsum. unfold tg in Hsum at 1 2. fold f. rewrite Hsum.
    assert (f (Nat.iter (S - 1) f 0) = 0) as Hclose.
    { rewrite <- (iter_pred f S) by done.
      apply (feasible_walk_closes val S Hbin Hfeas HS). }
    fold f. by rewrite Hclose.
Qed.

Lemma val_tour_2_binary i j :
  (val_tour_2 (x_ i j) == 0 ∨ val_tour_2 (x_ i j) == 1)%Q.
Proof.
  destruct i as [|[|i]], j as [|[|j]]; simpl;
    first [by left | by right].
Qed.

Lemma val_tour_2_feasible : feasible (build_model photos_2) val_tour_2.
Proof. repeat constructor. Qed.

Lemma objective_path_score_witness :
  ∃ order score c_last,
    extract_slideshow_from_gurobi (val_tour_2 <$> addVars2 2) photos_2 2 = Ok order
    ∧ analyze_transitions order (make_photos_dict photos_2) = Ok score
    ∧ last (walk (val_tour_2 <$> addVars2 2) 2 0 2) = Some c_last
    ∧ (eval_expr val_tour_2 (objective (build_model photos_2))
       == inject_Z (Z.of_nat
            (score + compute_interest (photos_2 !!! c_last).2
                       (photos_2 !!! 0%nat).2)%nat))%Q.
Proof.
  apply (objective_path_score photos_2 val_tour_2).
  - simpl. lia.
  - apply val_tour_2_binary.
  - apply val_tour_2_feasible.
  - apply (bool_decide_unpack _). vm_compute. exact I.
Defined.

(** X12. When the solver reports [OPTIMAL] with values that are 0 or 1
    on the edges and satisfy the constraints of the model,
    [create_optimized_slideshow] returns a tour with the objective value:
    S entries, the slides of the walk from slide 0, which goes through
    every slide exactly once along activated edges. *)
Theorem create_optimized_slideshow_feasible (optimize : Model → Solution)
    (photos : list slide) :
  let sol := optimize (build_model photos) in
  let S := length photos in
  let x : solved_matrix := X sol <$> addVars2 S in
  Status sol = GRB_OPTIMAL →
  (∀ i j, (X sol (x_ i j) == 0 ∨ X sol (x_ i j) == 1)%Q) →
  feasible (build_model photos) (X sol) →
  ∃ currents,
    create_optimized_slideshow optimize photos
    = Ok (slide_key photos <$> currents, ObjVal sol)
    ∧ currents ≡ₚ range S
    ∧ ∀ k a b, currents !! k = Some a → currents !! (k + 1) = Some b →
        edge x a b = true.
Proof.
  intros sol S x Hopt Hbin Hfeas.
  destruct (feasible_hamiltonian photos (X sol) Hbin Hfeas)
    as [Hdeg [Hperm Hcyc]].
  fold S x in Hdeg, Hperm, Hcyc. exists (walk x S 0 S). split_and!.
  - unfold create_optimized_slideshow. simpl. fold sol S x.
    rewrite decide_True by done.
    rewrite extract_walk; [done|apply keys_defined_addVars2|done].
  - done.
  - intros k a b Ha Hb.
    assert (k + 1 < S) as Hk.
    { apply lookup_lt_Some in Hb. by rewrite walk_length in Hb. }
    eapply cycle_edges_lookup; [done..|].
    by rewrite walk_length, Nat.mod_small.
Qed.

Lemma create_optimized_slideshow_feasible_witness :
  ∃ currents,
    create_optimized_slideshow optimize_tour_2 photos_2
    = Ok (slide_key photos_2 <$> currents, 2%Q)
    ∧ currents ≡ₚ range 2.
Proof.
  destruct (create_optimized_slideshow_feasible optimize_tour_2 photos_2)
    as (currents & Hcreate & Hperm & _).
  - reflexivity.
  - apply val_tour_2_binary.
  - apply val_tour_2_feasible.
  - exists currents. by split.
Defined.

(** ** The size of the model *)





(** ** The top level *)

Lemma walk_bound (x : solved_matrix) (S c n : nat) :
  c < S → Forall (λ a, a < S) (walk x S c n).
Proof.
  revert c. induction n as [|n IH]; intros c Hc; simpl; constructor; [done|].
  by apply IH, successor_lt.
Qed.

(** X14. An error that the parsing of [read_input] raises is raised by
    [main], which catches nothing. When [read_input] returns a slide
    list and the solver returns a solution, [main] writes nothing if the
    list is empty or the status of the solver is not [OPTIMAL]; otherwise
    the extraction and the audit of the extracted order raise nothing (no
    [KeyError]) and the text that [main] writes is that of the S slides
    of the walk from slide 0, whatever the values that the solver
    returned. *)
Theorem main_outcome (optimize : Model → Solution) (lines : list string) :
  (∀ e, read_input lines = Raise e → main optimize lines = Raise e)
  ∧ (∀ photos, read_input lines = Ok photos →
       let sol := optimize (build_model photos) in
       let S := length photos in
       let x : solved_matrix := X sol <$> addVars2 S in
       (Status sol ≠ GRB_OPTIMAL ∨ photos = [] → main optimize lines = Ok None)
       ∧ (Status sol = GRB_OPTIMAL → photos ≠ [] →
            main optimize lines
            = Ok (Some (write_output (slide_key photos <$> walk x S 0 S))))).
Proof.
  split.
  { intros e Hread. unfold main. by rewrite Hread. }
  intros photos Hread sol S x.
  assert (Status sol = GRB_OPTIMAL →
          create_optimized_slideshow optimize photos
          = Ok (slide_key photos <$> walk x S 0 S, ObjVal sol)) as Hopt.
  { intros Hstatus. unfold create_optimized_slideshow. simpl. fold sol S x.
    rewrite decide_True by done.
    rewrite extract_walk; [done|apply keys_defined_addVars2|done]. }
  split.
  - intros Hnone. unfold main. rewrite Hread. simpl.
    destruct (decide (Status sol = GRB_OPTIMAL)) as [Hstatus|Hstatus].
    + destruct Hnone as [Hne|Hnil]; [done|]. rewrite Hopt by done.
      subst photos. done.
    + unfold create_optimized_slideshow. fold sol.
      by rewrite decide_False by done.
  - intros Hstatus Hphotos. unfold main. rewrite Hread. simpl.
    rewrite Hopt by done. simpl.
    assert (0 < S) as HS.
    { unfold S. destruct photos; [done|]. simpl. lia. }
    rewrite analyze_transitions_extracted;
      [|by eapply read_input_keys_NoDup|by apply walk_bound].
    simpl. destruct S as [|S']; [lia|]. done.
Qed.

Lemma main_outcome_witness :
  main optimize_tour_2 ["x"] = Raise ValueError
  ∧ main optimize_time_limit lines_2 = Ok None
  ∧ main optimize_tour_2 lines_2
    = Ok (Some (write_output
                  (slide_key photos_2
                     <$> walk (X (optimize_tour_2 (build_model photos_2))
                                 <$> addVars2 2) 2 0 2))).
Proof.
  split_and!.
  - destruct (main_outcome optimize_tour_2 ["x"]) as [Hraise _].
    apply Hraise. reflexivity.
  - destruct (main_outcome optimize_time_limit lines_2) as [_ Hok].
    destruct (Hok photos_2) as [Hnone _]; [vm_compute; reflexivity|].
    apply Hnone. left. discriminate.
  - destruct (main_outcome optimize_tour_2 lines_2) as [_ Hok].
    destruct (Hok photos_2) as [_ Hsome]; [vm_compute; reflexivity|].
    apply Hsome; [reflexivity|discriminate].
Defined.

(** ** The written text *)

Lemma string_app_cons (a : ascii) (s t : string) :
  String a s +:+ t = String a (s +:+ t).
Proof. reflexivity. Qed.

Lemma string_app_nil_r (s : string) : s +:+ "" = s.
Proof.
  induction s as [|a s IH]; [done|]. by rewrite string_app_cons, IH.
Qed.

Lemma string_app_assoc (s t u : string) : (s +:+ t) +:+ u = s +:+ (t +:+ u).
Proof.
  induction s as [|a s IH]; [done|]. by rewrite !string_app_cons, IH.
Qed.

Lemma has_char_app (c : ascii) (s t : string) :
  has_char c (s +:+ t) = has_char c s || has_char c t.
Proof.
  induction s as [|a s IH]; [done|].
  rewrite string_app_cons. simpl. rewrite IH. by rewrite orb_assoc.
Qed.

(** The decimal writing of a number has digits only. *)
Lemma has_char_pretty_N_go (c : ascii) (n : N) (s : string) :
  Ascii.is_nat c = None → has_char c s = false →
  has_char c (pretty_N_go n s) = false.
Proof.
  intros Hc. revert s. induction (N.lt_wf_0 n) as [n _ IH]; intros s Hs.
  destruct (decide (n = 0%N)) as [->|Hn].
  - by rewrite pretty_N_go_0.
  - rewrite pretty_N_go_step by lia. apply IH.
    + apply N.div_lt; lia.
    + simpl. rewrite Hs, orb_false_r.
      apply Ascii.eqb_neq. intros <-.
      unfold pretty_N_char in Hc. by repeat case_match.
Qed.

Lemma has_char_str (c : ascii) (n : nat) :
  Ascii.is_nat c = None → has_char c (str n) = false.
Proof.
  intros Hc. unfold str, pretty, pretty_nat, pretty, pretty_N.
  case_decide.
  - change (has_char c "0") with (Ascii.eqb "0" c || false).
    rewrite orb_false_r. apply Ascii.eqb_neq. by intros <-.
  - by apply has_char_pretty_N_go.
Qed.

Lemma has_char_join_str (slide : list nat) :
  has_char (ascii_of_nat 10) (join " " (str <$> slide)) = false.
Proof.
  induction slide as [|n slide IH]; [done|].
  destruct slide as [|m slide].
  - simpl. by apply has_char_str.
  - change (join " " (str <$> n :: m :: slide))
      with (str n +:+ " " +:+ join " " (str <$> m :: slide)).
    rewrite !has_char_app, IH, has_char_str by done. done.
Qed.

Lemma text_lines_go_line (cur t rest : string) :
  has_char (ascii_of_nat 10) t = false →
  text_lines_go cur (t +:+ LF +:+ rest)
  = (cur +:+ t) :: text_lines_go "" rest.
Proof.
  revert cur. induction t as [|a t IH]; intros cur Ht.
  - simpl. by rewrite string_app_nil_r.
  - simpl in Ht. apply orb_false_elim in Ht as [Ha Ht].
    rewrite string_app_cons. simpl. rewrite Ha, IH by done.
    by rewrite string_app_assoc.
Qed.

Lemma unlines_fmap {A : Type} (f : A → string) (l : list A) :
  foldr (λ a acc, f a +:+ LF +:+ acc) "" l = unlines (f <$> l).
Proof. induction l as [|a l IH]; [done|]. simpl. by rewrite IH. Qed.

(** X15. The text that [write_output] writes is made of the number of
    slides in decimal, followed by one line for each slide of the order,
    in order: the indices of the slide in decimal, with one space between
    two of them. Every line ends with a line feed and has no other line
    feed, so that the text reads back, line by line, as these lines. *)
Theorem write_output_lines (slideshow_order : list (list nat)) :
  text_lines (write_output slideshow_order)
  = str (length slideshow_order)
    :: ((λ slide, join " " (str <$> slide)) <$> slideshow_order)
  ∧ write_output slideshow_order
    = unlines (str (length slideshow_order)
               :: ((λ slide, join " " (str <$> slide)) <$> slideshow_order))
  ∧ Forall (λ line, has_char (ascii_of_nat 10) line = false)
      (str (length slideshow_order)
       :: ((λ slide, join " " (str <$> slide)) <$> slideshow_order)).
Proof.
  split_and!.
  - unfold text_lines, write_output.
    rewrite text_lines_go_line by (by apply has_char_str). f_equal.
    induction slideshow_order as [|slide order IH]; [done|].
    simpl foldr. rewrite text_lines_go_line by apply has_char_join_str.
    by rewrite IH.
  - unfold write_output. by rewrite unlines_fmap.
  - constructor; [by apply has_char_str|].
    apply Forall_fmap, Forall_forall. intros slide _.
    apply has_char_join_str.
Qed.

(** ** Sorted verticals, empty inputs *)

Lemma sort_reverse_sorted {A : Type} (key : A → nat) (l : list A) :
  descending key l → sort_reverse key l = l.
Proof.
  induction l as [|a l IH]; intros Hd; [done|].
  apply descending_cons in Hd as [Hall Hd]. simpl. rewrite IH by done.
  destruct l as [|b l]; [done|]. simpl.
  apply Forall_cons_1 in Hall as [Hb _].
  by rewrite (proj2 (Nat.leb_le _ _) Hb).
Qed.

(** X16. When the vertical photos come in the input by descending number
    of tags, in particular when they all have the same number of tags,
    the sort leaves them in input order: the pairs are made from the end
    of the input, the last vertical photo with the one before it first. *)
Theorem read_input_sorted_verticals (l0 : string) (rest : list string) (N : Z) :
  int (strip l0) = Ok N →
  (N ≤ Z.of_nat (length rest))%Z →
  Forall (λ line, line_parts line ≠ []) (take (Z.to_nat N) rest) →
  descending (λ p : vphoto, size p.2)
    (vertical_photos 0 (take (Z.to_nat N) rest)) →
  read_input (l0 :: rest)
  = Ok (horizontal_slides 0 (take (Z.to_nat N) rest)
        ++ pair_up (reverse (vertical_photos 0 (take (Z.to_nat N) rest)))).
Proof.
  intros HN Hle Hparts Hdesc.
  rewrite (read_input_records l0 rest N HN Hle Hparts).
  unfold parsed_slides. by rewrite sort_reverse_sorted.
Qed.

Lemma read_input_sorted_verticals_witness :
  read_input lines_v4
  = Ok (horizontal_slides 0 (tail lines_v4)
        ++ pair_up (reverse (vertical_photos 0 (tail lines_v4)))).
Proof.
  assert (descending (λ p : vphoto, size p.2)
            (vertical_photos 0 (take (Z.to_nat 4) (tail lines_v4)))) as Hdesc.
  { intros i j a b _ Ha Hb.
    assert (size a.2 = 1 ∧ size b.2 = 1) as [-> ->]; [|done].
    split.
    - destruct i as [|[|[|[|i]]]]; simplify_eq/=; vm_compute; reflexivity.
    - destruct j as [|[|[|[|j]]]]; simplify_eq/=; vm_compute; reflexivity. }
  assert (Forall (λ line, line_parts line ≠ [])
            (take (Z.to_nat 4) (tail lines_v4))) as Hparts.
  { repeat constructor; discriminate. }
  assert (4 ≤ Z.of_nat (length (tail lines_v4)))%Z as Hle by (simpl; lia).
  exact (read_input_sorted_verticals "4" (tail lines_v4) 4 eq_refl
           Hle Hparts Hdesc).
Defined.

(** X17. A declared photo count that is zero or negative is accepted:
    [read_input] returns the empty slide list without reading any record,
    and [main] writes nothing, whatever the solver answers. *)
Theorem read_input_no_photo (optimize : Model → Solution) (l0 : string)
    (rest : list string) (N : Z) :
  int (strip l0) = Ok N →
  (N ≤ 0)%Z →
  read_input (l0 :: rest) = Ok []
  ∧ main optimize (l0 :: rest) = Ok None.
Proof.
  intros HN Hle.
  assert (read_input (l0 :: rest) = Ok []) as Hread.
  { unfold read_input. simpl. rewrite HN. simpl.
    by replace (Z.to_nat N) with 0 by lia. }
  split; [done|]. unfold main. rewrite Hread. simpl.
  unfold create_optimized_slideshow. by case_decide.
Qed.

Lemma read_input_no_photo_witness :
  read_input ["-3"; "H 1 a"] = Ok []
  ∧ main optimize_tour_2 ["-3"; "H 1 a"] = Ok None.
Proof.
  apply (read_input_no_photo optimize_tour_2 "-3" ["H 1 a"] (-3)%Z).
  - reflexivity.
  - lia.
Defined.

(** ** The first activated edge *)

Lemma head_filter_seq (P : nat → bool) (a n j : nat) :
  head (filter (λ j, P j) (seq a n)) = Some j →
  P j = true ∧ a ≤ j < a + n ∧ ∀ j', a ≤ j' < j → P j' = false.
Proof.
  revert a. induction n as [|n IH]; intros a; simpl; [done|].
  rewrite filter_cons. destruct (P a) eqn:HPa.
  - rewrite decide_True by (by apply Is_true_true_2). simpl. intros [= <-].
    split_and!; [done|lia..|]. intros j' Hj'. lia.
  - rewrite decide_False by (by apply Is_true_false_2). intros Hhd.
    apply IH in Hhd as (HP & Hj & Hmin). split_and!; [done|lia..|].
    intros j' Hj'. destruct (decide (j' = a)) as [->|Hne]; [done|].
    apply Hmin. lia.
Qed.

(** X18. When several edges out of the current slide are activated, the
    inner loop of the extraction follows the one to the slide of lowest
    index: the slide it returns is the current slide when no edge is
    activated, and otherwise a slide with an activated edge before which
    no slide of [range(S)] has one. *)
Theorem next_slide_first (x : solved_matrix) (S c j : nat) :
  keys_defined x S = true →
  c < S →
  next_slide x c (range S) = Ok j →
  (j = c ∧ no_outgoing x S c = true)
  ∨ (j < S ∧ edge x c j = true ∧ ∀ j', j' < j → edge x c j' = false).
Proof.
  intros Hkeys Hc Hnext.
  rewrite next_slide_successor in Hnext by done. injection Hnext as <-.
  destruct (successor_cases x S c) as [[Heq Hno]|(Hlt & He & _)]; [by left|].
  right. split_and!; [done..|].
  unfold successor, range in *.
  destruct (head (filter (λ j, edge x c j) (seq 0 S))) as [j|] eqn:Hhd.
  - simpl. apply head_filter_seq in Hhd as (_ & _ & Hmin).
    intros j' Hj'. apply Hmin. lia.
  - simpl in He. unfold edge in He.
    by rewrite bool_decide_eq_false_2 in He by naive_solver.
Qed.

Lemma next_slide_first_witness :
  (1 = 0 ∧ no_outgoing x_fork 3 0 = true)
  ∨ (1 < 3 ∧ edge x_fork 0 1 = true ∧ ∀ j', j' < 1 → edge x_fork 0 j' = false).
Proof.
  apply (next_slide_first x_fork 3 0 1); [reflexivity|lia|reflexivity].
Defined.

(** ** Symmetry of the objective *)

Lemma elem_of_build_objective (photos : list slide) (c : Z) (v : var) :
  (c, v) ∈ build_objective photos ↔
  ∃ i j, i < length photos ∧ j < length photos ∧ i ≠ j
         ∧ v = x_ i j
         ∧ c = Z.of_nat (compute_interest (photos !!! i).2 (photos !!! j).2).
Proof.
  unfold build_objective, range. rewrite list_elem_of_bind. split.
  - intros (i & Hin & Hi). apply list_elem_of_bind in Hin as (j & Hin & Hj).
    apply elem_of_seq in Hi, Hj. case_decide; [|by apply elem_of_nil in Hin].
    apply list_elem_of_singleton in Hin. injection Hin as -> ->.
    exists i, j. split_and!; [lia..|done|done|done].
  - intros (i & j & Hi & Hj & Hij & -> & ->). exists i. split.
    + apply list_elem_of_bind. exists j. split; [|apply elem_of_seq; lia].
      rewrite decide_True by done. left.
    + apply elem_of_seq. lia.
Qed.

(** X19. The objective of the model is symmetric: the edge from slide i
    to slide j and the edge from slide j to slide i have the same
    coefficient, and no term has a negative coefficient. *)
Theorem build_objective_symmetric (photos : list slide) (c : Z) (i j : nat) :
  ((c, x_ i j) ∈ build_objective photos ↔ (c, x_ j i) ∈ build_objective photos)
  ∧ Forall (λ t, (0 ≤ t.1)%Z) (build_objective photos).
Proof.
  split.
  - rewrite !elem_of_build_objective. split.
    + intros (i' & j' & Hi & Hj & Hij & [= <- <-] & ->).
      exists j, i. split_and!; [done..|]. by rewrite compute_interest_swap.
    + intros (i' & j' & Hi & Hj & Hij & [= <- <-] & ->).
      exists i, j. split_and!; [done..|]. by rewrite compute_interest_swap.
  - apply Forall_forall. intros [c' v] Hin.
    apply elem_of_build_objective in Hin as (i' & j' & _ & _ & _ & _ & ->).
    simpl. lia.
Qed.
